(** * Call-data decoding utilities: type-list splitter, signature extractor,
      value post-processor and decode orchestrator (src/utils.py).

    The Python functions are embedded as executable Rocq functions.  Python
    strings are lists of characters (code points below 256), Python integers
    are [Z], byte strings are lists of [byte], dictionaries used as lookup
    tables are [gmap]s, and raised exceptions are the [Raise] case of
    [result]. *)

From Stdlib Require Import ZArith List Ascii String Lia Bool DecimalString.
From Stdlib.Strings Require Import Byte.
From Stdlib Require Import DecimalNat.
From stdpp Require Import base list gmap strings.

Set Warnings "-register-all".

(** ** Python string primitives *)

Module Py.

Abbreviation str := (list ascii).

(** A string literal as a list of characters. *)
Definition lit (s : string) : str := list_ascii_of_string s.

Definition len {A} (s : list A) : Z := Z.of_nat (length s).

(** Slice indices: a negative index counts from the end, and the result is
    clamped to [0, len]. *)
Definition clamp (n i : Z) : Z :=
  if (i <? 0)%Z then Z.max (i + n) 0 else Z.min i n.

(** [s[a:b]] *)
Definition slice {A} (s : list A) (a b : Z) : list A :=
  let lo := clamp (len s) a in
  let hi := clamp (len s) b in
  take (Z.to_nat (hi - lo)) (drop (Z.to_nat lo) s).

(** [s[a:]] *)
Definition slice_from {A} (s : list A) (a : Z) : list A :=
  drop (Z.to_nat (clamp (len s) a)) s.

(** [s[:b]] *)
Definition slice_to {A} (s : list A) (b : Z) : list A :=
  take (Z.to_nat (clamp (len s) b)) s.

(** [s.find(c)] for a one-character needle: lowest index, or -1. *)
Fixpoint find_from (c : ascii) (s : str) (i : Z) : Z :=
  match s with
  | [] => (-1)%Z
  | x :: r => if decide (x = c) then i else find_from c r (i + 1)%Z
  end.
Definition find (c : ascii) (s : str) : Z := find_from c s 0.

(** [s.rfind(c)] for a one-character needle: highest index, or -1. *)
Fixpoint rfind_from (c : ascii) (s : str) (i acc : Z) : Z :=
  match s with
  | [] => acc
  | x :: r => rfind_from c r (i + 1)%Z (if decide (x = c) then i else acc)
  end.
Definition rfind (c : ascii) (s : str) : Z := rfind_from c s 0 (-1)%Z.

(** [s.startswith(p)] *)
Fixpoint startswith (p s : str) : bool :=
  match p, s with
  | [], _ => true
  | a :: p', b :: s' => bool_decide (a = b) && startswith p' s'
  | _ :: _, [] => false
  end.

(** [s.endswith(p)] *)
Definition endswith (p s : str) : bool := startswith (rev p) (rev s).

(** The characters [str.strip()] removes, among code points below 256. *)
Definition isspace (c : ascii) : bool :=
  let n := N_of_ascii c in
  ((9 <=? n)%N && (n <=? 13)%N) || ((28 <=? n)%N && (n <=? 32)%N)
  || (n =? 133)%N || (n =? 160)%N.

Fixpoint lstrip (s : str) : str :=
  match s with
  | [] => []
  | c :: r => if isspace c then lstrip r else s
  end.

Fixpoint rstrip (s : str) : str :=
  match s with
  | [] => []
  | c :: r =>
    match rstrip r with
    | [] => if isspace c then [] else [c]
    | r' => c :: r'
    end
  end.

(** [s.strip()] *)
Definition strip (s : str) : str := rstrip (lstrip s).

(** [s.replace(c, "")] for a one-character [c]. *)
Definition remove_char (c : ascii) (s : str) : str :=
  filter (λ x, x ≠ c) s.

(** [sep.join(l)] *)
Fixpoint join (sep : str) (l : list str) : str :=
  match l with
  | [] => []
  | [x] => x
  | x :: rest => x ++ sep ++ join sep rest
  end.

(** Decimal rendering of a non-negative integer, as in [f"{i}"]. *)
Definition decimal (n : nat) : str :=
  lit (NilEmpty.string_of_uint (Nat.to_uint n)).

End Py.

Import Py.

(** ** Exceptions and results *)

Inductive exn :=
  | ValueError (msg : str)      (* raised by the source itself *)
  | FromhexError                (* the ValueError of bytes.fromhex *)
  | IndexError
  | KeyError (key : str)
  | TypeError
  | AttributeError
  | RecursionError
  | LibraryError (name : str).  (* raised inside eth_abi / eth_utils *)

Inductive result (A : Type) :=
  | Ok (a : A)
  | Raise (e : exn).
Arguments Ok {A} a.
Arguments Raise {A} e.

Definition rbind {A B} (r : result A) (k : A → result B) : result B :=
  match r with
  | Ok a => k a
  | Raise e => Raise e
  end.

Notation "'try' x <- r 'in' k" := (rbind r (λ x, k))
  (at level 10, x name, r at level 100, k at level 200, only parsing).

(** Left-to-right evaluation of a comprehension: the first exception wins. *)
Fixpoint rmap {A B} (f : A → result B) (l : list A) : result (list B) :=
  match l with
  | [] => Ok []
  | a :: l' => try b <- f a in try bs <- rmap f l' in Ok (b :: bs)
  end.

(** ** The type-list splitter *)

Record split_state := SplitState {
  parts : list str;
  buf : list ascii;
  depth : Z
}.

(** One iteration of the [for ch in types_str] loop. *)
Definition split_step (st : split_state) (ch : ascii) : split_state :=
  if decide (ch = "("%char) then
    SplitState (parts st) (buf st ++ [ch]) (depth st + 1)
  else if decide (ch = ")"%char) then
    SplitState (parts st) (buf st ++ [ch]) (depth st - 1)
  else if decide (ch = ","%char ∧ depth st = 0%Z) then
    SplitState (parts st ++ [strip (buf st)]) [] (depth st)
  else
    SplitState (parts st) (buf st ++ [ch]) (depth st).

Definition split_finish (st : split_state) : list str :=
  let parts' :=
    if decide (buf st ≠ []) then parts st ++ [strip (buf st)] else parts st in
  filter (λ p, p ≠ []) parts'.

Definition _split_top_level_args (types_str : str) : list str :=
  split_finish (fold_left split_step types_str (SplitState [] [] 0)).

(** *** The splitter described by its cut points

    [chunks d s] cuts [s] at every comma met while the running depth is 0,
    the depth starting at [d]; [split_spec] trims the pieces and drops the
    empty ones. *)

Definition depth_step (d : Z) (ch : ascii) : Z :=
  if decide (ch = "("%char) then (d + 1)%Z
  else if decide (ch = ")"%char) then (d - 1)%Z
  else d.

Definition graft (b : str) (cs : list str) : list str :=
  match cs with
  | [] => [b]
  | c :: cs' => (b ++ c) :: cs'
  end.

Fixpoint chunks (d : Z) (s : str) : list str :=
  match s with
  | [] => [[]]
  | ch :: rest =>
    if decide (ch = ","%char ∧ d = 0%Z) then [] :: chunks d rest
    else graft [ch] (chunks (depth_step d ch) rest)
  end.

Definition split_spec (s : str) : list str :=
  filter (λ p, p ≠ []) (strip <$> chunks 0 s).

(** [depth_after d s]: the depth after scanning [s] from depth [d], or
    [None] when a comma is met at depth 0 on the way. *)
Fixpoint depth_after (d : Z) (s : str) : option Z :=
  match s with
  | [] => Some d
  | ch :: rest =>
    if decide (ch = ","%char ∧ d = 0%Z) then None
    else depth_after (depth_step d ch) rest
  end.


(** ** The signature extractor *)

Definition _extract_types_from_signature (signature : str) : result (list str) :=
  let l := find "("%char signature in
  let r := rfind ")"%char signature in
  if decide (l = -1 ∨ r = -1 ∨ r < l)%Z then
    Raise (ValueError (lit "Malformed signature: " ++ signature))
  else
    let inner := strip (slice signature (l + 1) r) in
    if decide (inner = []) then Ok []
    else Ok (_split_top_level_args inner).

(** ** Python values *)

Inductive value :=
  | VBool (b : bool)
  | VInt (n : Z)
  | VStr (s : str)
  | VBytes (b : list byte)
  | VTuple (items : list value)
  | VList (items : list value)
  | VDict (entries : list (str * value)).

(** [iter(value)]: what a comprehension [for v in value] ranges over. *)
Definition py_iter (v : value) : result (list value) :=
  match v with
  | VBool _ | VInt _ => Raise TypeError
  | VStr s => Ok ((λ c, VStr [c]) <$> s)
  | VBytes b => Ok ((λ x, VInt (Z.of_N (Byte.to_N x))) <$> b)
  | VTuple l | VList l => Ok l
  | VDict d => Ok ((λ kv, VStr kv.1) <$> d)
  end.

(** [value[i]] for an index [i >= 0]. *)
Definition py_getitem (v : value) (i : nat) : result value :=
  match v with
  | VBool _ | VInt _ => Raise TypeError
  | VStr s =>
    match s !! i with Some c => Ok (VStr [c]) | None => Raise IndexError end
  | VBytes b =>
    match b !! i with
    | Some x => Ok (VInt (Z.of_N (Byte.to_N x)))
    | None => Raise IndexError
    end
  | VTuple l | VList l =>
    match l !! i with Some x => Ok x | None => Raise IndexError end
  | VDict d => Raise (KeyError (decimal i))
  end.

Definition hex_digit (n : N) : ascii :=
  nth (N.to_nat n) (lit "0123456789abcdef") "0"%char.

Definition hex_of_byte (b : byte) : str :=
  let n := Byte.to_N b in [hex_digit (n / 16); hex_digit (n mod 16)].

(** [bytes.hex()] *)
Definition bytes_hex (b : list byte) : str := mbind hex_of_byte b.

(** [value.hex()]: only byte strings have the method. *)
Definition py_hex (v : value) : result str :=
  match v with
  | VBytes b => Ok (bytes_hex b)
  | _ => Raise AttributeError
  end.

(** ** bytes.fromhex *)

(** ASCII whitespace, skipped between two-digit groups. *)
Definition is_c_space (c : ascii) : bool :=
  let n := N_of_ascii c in ((9 <=? n)%N && (n <=? 13)%N) || (n =? 32)%N.

Definition hex_value (c : ascii) : option N :=
  let n := N_of_ascii c in
  if ((48 <=? n) && (n <=? 57))%N then Some (n - 48)%N
  else if ((97 <=? n) && (n <=? 102))%N then Some (n - 87)%N
  else if ((65 <=? n) && (n <=? 70))%N then Some (n - 55)%N
  else None.

Definition byte_of_N (n : N) : byte := byte_of_ascii (ascii_of_N n).

Fixpoint bytes_fromhex (s : str) : result (list byte) :=
  match s with
  | [] => Ok []
  | c :: r =>
    if is_c_space c then bytes_fromhex r
    else
      match r with
      | [] => Raise FromhexError
      | c2 :: r' =>
        match hex_value c, hex_value c2 with
        | Some top, Some bot =>
          try bs <- bytes_fromhex r' in Ok (byte_of_N (16 * top + bot) :: bs)
        | _, _ => Raise FromhexError
        end
      end
  end.

(** ** The value post-processor *)

(** Results of a fuel-bounded run: [None] when the fuel ran out. *)
Definition fbind {A B} (m : option (result A)) (k : A → option (result B))
  : option (result B) :=
  match m with
  | None => None
  | Some (Raise e) => Some (Raise e)
  | Some (Ok a) => k a
  end.

Notation "'run' x <- m 'in' k" := (fbind m (λ x, k))
  (at level 10, x name, m at level 100, k at level 200, only parsing).

Fixpoint fmap_run {A B} (f : A → option (result B)) (l : list A)
  : option (result (list B)) :=
  match l with
  | [] => Some (Ok [])
  | a :: l' => run b <- f a in run bs <- fmap_run f l' in Some (Ok (b :: bs))
  end.

(** The dict comprehension over [range(len(subtypes))], from index [i] on:
    [value[i]] is read, then rendered with [subtypes[i]]. *)
Fixpoint render_members (rec : str → value → option (result value))
    (subtypes : list str) (i : nat) (v : value)
  : option (result (list (str * value))) :=
  match subtypes with
  | [] => Some (Ok [])
  | ty :: rest =>
    run x <- Some (py_getitem v i) in
    run y <- rec ty x in
    run ys <- render_members rec rest (S i) v in
    Some (Ok ((lit "_" ++ decimal i, y) :: ys))
  end.

(** The element type of an array type string: [t[:t.rfind('[')]]. *)
Definition array_base (t : str) : str := slice_to t (rfind "["%char t).

(** The member types of a tuple type string. *)
Definition tuple_members (t : str) : list str :=
  _split_top_level_args (slice t 1 (-1)).

Definition hex_string (v : value) : result value :=
  try h <- py_hex v in Ok (VStr (lit "0x" ++ h)).

Section PostProcess.

(** eth_utils.to_checksum_address *)
Variable to_checksum_address : value → result value.

(** The body of [_postprocess_value]; [rec] stands for the recursive
    calls. *)
Definition postprocess_body (rec : str → value → option (result value))
    (sol_type : str) (v : value) : option (result value) :=
  let t := remove_char " "%char sol_type in
  if endswith (lit "]") t then
    let base := array_base t in
    run items <- Some (py_iter v) in
    run out <- fmap_run (rec base) items in
    Some (Ok (VList out))
  else if startswith (lit "(") t && endswith (lit ")") t then
    let subtypes := tuple_members t in
    run entries <- render_members rec subtypes 0 v in
    Some (Ok (VDict entries))
  else if decide (t = lit "address") then Some (to_checksum_address v)
  else if startswith (lit "bytes") t && bool_decide (t ≠ lit "bytes") then
    Some (hex_string v)
  else if decide (t = lit "bytes") then Some (hex_string v)
  else Some (Ok v).

(** [fuel] bounds the depth of nested calls. *)
Fixpoint postprocess_fuel (fuel : nat) (sol_type : str) (v : value)
  : option (result value) :=
  match fuel with
  | O => None
  | S fuel' => postprocess_body (postprocess_fuel fuel') sol_type v
  end.

(** The recursion is on ever shorter type strings, so a fuel of one more
    than the length of the type string is never used up
    (see [postprocess_fuel_enough]): the [None] branch below is never taken.
    The interpreter's own recursion limit is not modelled. *)
Definition _postprocess_value (sol_type : str) (v : value) : result value :=
  match postprocess_fuel (S (length sol_type)) sol_type v with
  | Some r => r
  | None => Raise RecursionError
  end.

(** ** The decode orchestrator *)

Record call_record := CallRecord {
  selector : str;
  known : bool;
  name : option str;
  signature : option str;
  arg_types : option (list str);
  args_decoded : option (list value);
  error : option str
}.

Definition unknown_record (sel : str) : call_record :=
  CallRecord sel false None None None None
    (Some (lit "Unknown function selector")).

Definition known_record (sel nm sig : str) (tys : list str)
    (args : list value) : call_record :=
  CallRecord sel true (Some nm) (Some sig) (Some tys) (Some args) None.

(** [entry[key]] *)
Definition entry_get (entry : gmap str str) (key : str) : result str :=
  match entry !! key with
  | Some x => Ok x
  | None => Raise (KeyError key)
  end.

(** eth_abi.decode *)
Variable abi_decode : list str → list byte → result (list value).

Definition parse_tx_input (calldata_hex : str)
    (selectors : gmap str (gmap str str)) : result call_record :=
  let calldata_hex :=
    if startswith (lit "0x") calldata_hex then slice_from calldata_hex 2
    else calldata_hex in
  if decide (len calldata_hex < 8)%Z then
    Raise (ValueError (lit "Calldata too short to contain a selector."))
  else
    let sel := lit "0x" ++ slice_to calldata_hex 8 in
    let body_hex := slice_from calldata_hex 8 in
    try body_bytes <- bytes_fromhex body_hex in
    match selectors !! sel with
    | None => Ok (unknown_record sel)
    | Some entry =>
      if decide (entry = ∅) then Ok (unknown_record sel)
      else
        try sig <- entry_get entry (lit "signature") in
        try nm <- entry_get entry (lit "name") in
        try tys <- _extract_types_from_signature sig in
        if decide (tys = []) then Ok (known_record sel nm sig [] [])
        else
          try decoded <- abi_decode tys body_bytes in
          try pretty <-
            rmap (λ tv, _postprocess_value tv.1 tv.2) (zip tys decoded) in
          Ok (known_record sel nm sig tys pretty)
    end.

End PostProcess.

(** ** Well-formed type strings as printed type trees *)

Inductive ty :=
  | Elementary (name : str)
  | Tuple (members : list ty)
  | Array (element : ty) (fixed_length : option nat).

Fixpoint show (t : ty) : str :=
  match t with
  | Elementary n => n
  | Tuple ms => lit "(" ++ join (lit ",") (show <$> ms) ++ lit ")"
  | Array e None => show e ++ lit "[]"
  | Array e (Some k) => show e ++ lit "[" ++ decimal k ++ lit "]"
  end.

(** Number of array and tuple layers above the deepest elementary type. *)
Fixpoint nesting (t : ty) : nat :=
  match t with
  | Elementary _ => 0
  | Tuple ms => S (max_list (nesting <$> ms))
  | Array e _ => S (nesting e)
  end.

Definition is_alnum (c : ascii) : bool :=
  let n := N_of_ascii c in
  ((48 <=? n) && (n <=? 57))%N || ((97 <=? n) && (n <=? 122))%N
  || ((65 <=? n) && (n <=? 90))%N.

(** Elementary names are non-empty words of letters and digits. *)
Definition name_ok (n : str) : bool :=
  negb (bool_decide (n = [])) && forallb is_alnum n.

Fixpoint well_formed (t : ty) : bool :=
  match t with
  | Elementary n => name_ok n
  | Tuple ms => forallb well_formed ms
  | Array e _ => well_formed e
  end.

(** ** Predicates used in the statements *)

(** A list element that survives a join-then-split unchanged: it is not
    empty, has no leading or trailing whitespace, and scanned from depth 0
    it meets no comma at depth 0 and ends at depth 0 again. *)
Definition splittable (x : str) : Prop :=
  x ≠ [] ∧ strip x = x ∧ depth_after 0 x = Some 0%Z.

(** The last ')' lies before the first '('. *)
Definition paren_reversed (s : str) : Prop :=
  ∃ a b c, s = a ++ ")"%char :: b ++ "("%char :: c
           ∧ (")"%char ∉ b ++ "("%char :: c) ∧ ("("%char ∉ a ++ ")"%char :: b).

(** The signatures the extractor rejects: no '(', no ')', or the last ')'
    before the first '('. *)
Definition malformed (s : str) : Prop :=
  "("%char ∉ s ∨ ")"%char ∉ s ∨ paren_reversed s.

(** Type strings the post-processor treats as arrays, tuples and elementary
    types, after spaces are removed. *)
Definition is_array (sol_type : str) : bool :=
  endswith (lit "]") (remove_char " "%char sol_type).

Definition is_tuple (sol_type : str) : bool :=
  let t := remove_char " "%char sol_type in
  negb (endswith (lit "]") t)
  && (startswith (lit "(") t && endswith (lit ")") t).

Definition is_elementary (sol_type : str) : bool :=
  negb (is_array sol_type) && negb (is_tuple sol_type).

(** One of 0-9, a-f. *)
Definition is_lower_hex (c : ascii) : bool :=
  let n := N_of_ascii c in
  ((48 <=? n) && (n <=? 57))%N || ((97 <=? n) && (n <=? 102))%N.

Definition is_hex_char (c : ascii) : bool :=
  match hex_value c with Some _ => true | None => false end.

(** An even number of hexadecimal digits and nothing else. *)
Definition valid_even_hex (s : str) : bool :=
  Nat.even (length s) && forallb is_hex_char s.

(** The call-data after an optional "0x" prefix is dropped. *)
Definition strip_0x (calldata_hex : str) : str :=
  if startswith (lit "0x") calldata_hex then slice_from calldata_hex 2
  else calldata_hex.

(** Stand-ins for the two library functions, for closed examples. *)
Definition checksum_stub (v : value) : result value :=
  match v with
  | VStr s => Ok (VStr (lit "checksummed:" ++ s))
  | _ => Raise (LibraryError (lit "to_checksum_address"))
  end.

Definition decode_stub (tys : list str) (body : list byte)
  : result (list value) :=
  Raise (LibraryError (lit "abi_decode")).

(** Three entries of the selector table of the source. *)
Definition example_registry : gmap str (gmap str str) :=
  let entry nm sig : gmap str str :=
    <[lit "name" := lit nm]> (<[lit "signature" := lit sig]> ∅) in
  <[lit "0x70a08231" := entry "balanceOf" "balanceOf(address)"]>
    (<[lit "0xa9059cbb" := entry "transfer" "transfer(address,uint256)"]>
       (<[lit "0xd0c93a7c" := entry "tickSpacing" "tickSpacing()"]> ∅)).

(** Characters that neither change the depth nor cut. *)
Definition neutral (c : ascii) : Prop :=
  c ≠ "("%char ∧ c ≠ ")"%char ∧ c ≠ ","%char.

(** Strings of whitespace. *)
Abbreviation blank w := (Forall (λ c, isspace c = true) w).

(** ** The selector table of the source *)

(** [{'name': nm, 'signature': sig}] *)
Definition selector_entry (nm sig : str) : gmap str str :=
  <[lit "signature" := sig]> (<[lit "name" := nm]> ∅).

(** The assignments [f_selector_dict[key] = {'name': ..., 'signature': ...}]
    of the source, in source order: key, name, signature. *)
Definition f_selector_assignments : list (string * (string * string)) :=
[
  ("0x70a08231", ("balanceOf",
     "balanceOf(address)"));
  ("0xa9059cbb", ("transfer",
     "transfer(address,uint256)"));
  ("0x128acb08", ("swap",
     "swap(address,bool,int256,uint160,bytes)"));
  ("0x23b872dd", ("transferFrom",
     "transferFrom(address,address,uint256)"));
  ("0x48c89491", ("unlock",
     "unlock(bytes)"));
  ("0x91dd7346", ("unlockCallback",
     "unlockCallback(bytes)"));
  ("0xf3cd914c", ("swap",
     "swap((address,address,uint24,int24,address),(bool,int256,uint160),bytes)"));
  ("0xd0c93a7c", ("tickSpacing",
     "tickSpacing()"));
  ("0x3850c7bd", ("slot0",
     "slot0()"));
  ("0xf135baaa", ("exttload",
     "exttload(bytes32)"));
  ("0xfa461e33", ("uniswapV3SwapCallback",
     "uniswapV3SwapCallback(int256,int256,bytes)"));
  ("0x0b0d9c09", ("take",
     "take(address,address,uint256)"));
  ("0x11da60b4", ("settle",
     "settle()"));
  ("0x1a686502", ("liquidity",
     "liquidity()"));
  ("0x5339c296", ("tickBitmap",
     "tickBitmap(int16)"));
  ("0xb88c9148", ("getFee",
     "getFee(address)"));
  ("0x095ea7b3", ("approve",
     "approve(address,uint256)"));
  ("0x0902f1ac", ("getReserves",
     "getReserves()"));
  ("0xa5841194", ("sync",
     "sync(address)"));
  ("0x2e1a7d4d", ("withdraw",
     "withdraw(uint256)"));
  ("0xddca3f43", ("fee",
     "fee()"));
  ("0xd0e30db0", ("deposit",
     "deposit()"));
  ("0xfeaf968c", ("latestRoundData",
     "latestRoundData()"));
  ("0x35458dcc", ("getSwapFee",
     "getSwapFee(address)"));
  ("0x23a69e75", ("pancakeV3SwapCallback",
     "pancakeV3SwapCallback(int256,int256,bytes)"));
  ("0x022c0d9f", ("transfer_attention_tg_invmru_28108a2",
     "transfer_attention_tg_invmru_28108a2(bool,bool,uint256)"));
  ("0x883bdbfd", ("observe",
     "observe(uint32[])"));
  ("0x72c98186", ("onSwap",
     "onSwap((uint8,uint256,uint256[],uint256,uint256,address,bytes))"));
  ("0x36c78516", ("transferFrom",
     "transferFrom(address,address,uint160,address)"));
  ("0x2bfb780c", ("swap",
     "swap((uint8,address,address,address,uint256,uint256,bytes))"));
  ("0xd15e0053", ("getReserveNormalizedIncome",
     "getReserveNormalizedIncome(address)"));
  ("0xf140a35a", ("getAmountOut",
     "getAmountOut(uint256,address)"));
  ("0x13fb72c7", ("executeBatchWithCallback",
     "executeBatchWithCallback((bytes,bytes)[],bytes)"));
  ("0x380dc1c2", ("tickSpacingToFee",
     "tickSpacingToFee(int24)"));
  ("0xcefa7799", ("poolImplementation",
     "poolImplementation()"));
  ("0x3593564c", ("execute",
     "execute(bytes,bytes[],uint256)"));
  ("0x15afd409", ("settle",
     "settle(address,uint256)"));
  ("0xae639329", ("sendTo",
     "sendTo(address,address,uint256)"));
  ("0x1703e5f9", ("isAlive",
     "isAlive(address)"));
  ("0xe5135ec6", ("executeBatch",
     "executeBatch((bytes,bytes)[],bytes)"));
  ("0xb9a09fd5", ("gauges",
     "gauges(address)"));
  ("0xa15ea89f", ("getLatestPeriodInfo",
     "getLatestPeriodInfo(address)"));
  ("0x50d25bcd", ("latestAnswer",
     "latestAnswer()"));
  ("0x679aefce", ("getRate",
     "getRate()"));
  ("0xcc56b2c5", ("getFee",
     "getFee(address,bool)"));
  ("0x5c60e39a", ("market",
     "market(bytes32)"));
  ("0xb187bd26", ("isPaused",
     "isPaused()"));
  ("0xf30dba93", ("ticks",
     "ticks(int24)"));
  ("0x8c00bf6b", ("borrowRateView",
     "borrowRateView((address,address,address,address,uint256),(uint128,uint128,uint128,uint128,uint128,uint128))"));
  ("0xe468baf0", ("allWhitelistedTokens",
     "allWhitelistedTokens(uint256)"));
  ("0xdaf9c210", ("whitelistedTokens",
     "whitelistedTokens(address)"));
  ("0x0a5ea466", ("claimTokens",
     "claimTokens(address,address,address,uint256)"));
  ("0xee63c1e5", ("swapUniV3",
     "swapUniV3()"));
  ("0x9d2c110c", ("onSwap",
     "onSwap((uint8,address,address,uint256,bytes32,uint256,address,address,bytes),uint256,uint256)"));
  ("0x87517c45", ("approve",
     "approve(address,address,uint160,uint48)"));
  ("0xe55186a1", ("getUnit",
     "getUnit()"));
  ("0x0d335884", ("executeWithCallback",
     "executeWithCallback((bytes,bytes),bytes)"));
  ("0x9dc29fac", ("burn",
     "burn(address,uint256)"));
  ("0x61461954", ("execute",
     "execute()"));
  ("0x0c49ccbe", ("decreaseLiquidity",
     "decreaseLiquidity((uint256,uint128,uint256,uint256,uint256))"));
  ("0xf90c6906", ("priceFeeds",
     "priceFeeds(address,address)"));
  ("0x64ee4b80", ("gm",
     "gm(address,uint8)"));
  ("0x9d63848a", ("tokens",
     "tokens()"));
  ("0x927da105", ("allowance",
     "allowance(address,address,address)"))
].

(** One assignment [d[key] = entry]. *)
Definition assign (d : gmap str (gmap str str))
    (a : string * (string * string)) : gmap str (gmap str str) :=
  <[lit a.1 := selector_entry (lit a.2.1) (lit a.2.2)]> d.

Definition f_selector_dict : gmap str (gmap str str) :=
  fold_left assign f_selector_assignments ∅.

(** "0x" followed by eight of 0-9, a-f. *)
Definition key_ok (k : str) : bool :=
  startswith (lit "0x") k && bool_decide (length k = 10)
  && forallb is_lower_hex (drop 2 k).

(** What the table holds for one assignment: a well-formed key, and a
    signature that is the name followed by the parenthesised comma-join of
    the types the extractor finds in it. *)
Definition assignment_ok (a : string * (string * string)) : bool :=
  key_ok (lit a.1)
  && match _extract_types_from_signature (lit a.2.2) with
     | Ok tys =>
       bool_decide (lit a.2.2
                    = lit a.2.1 ++ lit "(" ++ join (lit ",") tys ++ lit ")")
     | Raise _ => false
     end.

(** ** Rendering along a type tree *)

(** The positional entries of a rendered tuple, from index [i] on. *)
Definition members_with {A} (f : A → value → result value)
  : list A → nat → value → result (list (str * value)) :=
  fix go ms i v :=
    match ms with
    | [] => Ok []
    | m :: ms' =>
      try x <- py_getitem v i in
      try y <- f m x in
      try ys <- go ms' (S i) v in
      Ok ((lit "_" ++ decimal i, y) :: ys)
    end.

(** The post-processor as a recursion over the type tree instead of over
    the type string. *)
Fixpoint render_tree (to_checksum_address : value → result value)
    (t : ty) (v : value) : result value :=
  match t with
  | Elementary n =>
    if decide (n = lit "address") then to_checksum_address v
    else if startswith (lit "bytes") n then hex_string v
    else Ok v
  | Tuple ms =>
    try es <- members_with (render_tree to_checksum_address) ms 0 v in
    Ok (VDict es)
  | Array e _ =>
    try items <- py_iter v in
    try out <- rmap (render_tree to_checksum_address e) items in
    Ok (VList out)
  end.

(** ** Shapes of splitter output *)

(** A piece as the splitter emits it: not empty, trimmed, and without a
    comma at depth 0. *)
Definition piece (x : str) : Prop :=
  x ≠ [] ∧ strip x = x ∧ is_Some (depth_after 0 x).

(** A list all of whose elements but the last are [splittable], the last
    being a [piece]. *)
Fixpoint joinable (l : list str) : Prop :=
  match l with
  | [] => True
  | x :: rest =>
    match rest with
    | [] => piece x
    | _ :: _ => splittable x ∧ joinable rest
    end
  end.

(** Scanned from depth [d], every element but the last ends at depth 0
    without meeting a comma at depth 0; the last meets none either. *)
Fixpoint chain (d : Z) (l : list str) : Prop :=
  match l with
  | [] => True
  | x :: rest =>
    match rest with
    | [] => is_Some (depth_after d x)
    | _ :: _ => depth_after d x = Some 0%Z ∧ chain 0 rest
    end
  end.


(** ** Values shaped like a type *)

(** Member by member, surplus elements allowed. *)
Definition fits_members (f : ty → value → Prop)
  : list ty → list value → Prop :=
  fix go ms items :=
    match ms, items with
    | [], _ => True
    | m :: ms', x :: items' => f m x ∧ go ms' items'
    | _ :: _, [] => False
    end.

(** [fits cs t v]: the decoded value [v] has the shape of the type [t]: a
    byte string where the type is bytes or bytesN, a value the checksum
    function [cs] accepts where it is address, a sequence of fitting
    elements for an array, a tuple with at least one fitting element per
    member for a tuple. *)
Fixpoint fits (cs : value → result value) (t : ty) (v : value) : Prop :=
  match t with
  | Elementary n =>
    if decide (n = lit "address") then ∃ r, cs v = Ok r
    else if startswith (lit "bytes") n then ∃ b, v = VBytes b
    else True
  | Tuple ms => ∃ items, v = VTuple items ∧ fits_members (fits cs) ms items
  | Array e _ =>
    ∃ items, (v = VTuple items ∨ v = VList items) ∧ Forall (fits cs e) items
  end.

(** * Properties *)

(** ** Stripping whitespace *)

Section Strip.

Lemma lstrip_blank_app (w c : str) : blank w → lstrip (w ++ c) = lstrip c.
Proof.
  induction 1 as [|x w Hx _ IH]; simpl; [done|]. by rewrite Hx.
Qed.

Lemma rstrip_blank (w : str) : blank w → rstrip w = [].
Proof.
  induction 1 as [|x w Hx _ IH]; simpl; [done|]. by rewrite IH, Hx.
Qed.

Lemma rstrip_app_blank (c w : str) : blank w → rstrip (c ++ w) = rstrip c.
Proof.
  intros Hw. induction c as [|x c IH]; simpl.
  - by apply rstrip_blank.
  - by rewrite IH.
Qed.

Lemma lstrip_app (c w : str) :
  lstrip (c ++ w) = match lstrip c with [] => lstrip w | r => r ++ w end.
Proof.
  induction c as [|x c IH]; simpl; [by destruct (lstrip w)|].
  destruct (isspace x); done.
Qed.

Lemma strip_blank_app (w c : str) : blank w → strip (w ++ c) = strip c.
Proof. intros Hw. unfold strip. by rewrite lstrip_blank_app. Qed.

Lemma lstrip_blank (w : str) : blank w → lstrip w = [].
Proof. intros Hw. rewrite <- (app_nil_r w). by rewrite lstrip_blank_app. Qed.

Lemma strip_app_blank (c w : str) : blank w → strip (c ++ w) = strip c.
Proof.
  intros Hw. unfold strip. rewrite lstrip_app.
  destruct (lstrip c) as [|x r] eqn:E.
  - by rewrite lstrip_blank.
  - by rewrite rstrip_app_blank.
Qed.

Lemma lstrip_split (s : str) : ∃ w, blank w ∧ s = w ++ lstrip s.
Proof.
  induction s as [|x s (w & Hw & IH)]; simpl.
  - by exists [].
  - destruct (isspace x) eqn:Hx.
    + exists (x :: w). split; [by constructor|]. simpl. by rewrite <- IH.
    + by exists [].
Qed.

Lemma rstrip_split (s : str) : ∃ w, blank w ∧ s = rstrip s ++ w.
Proof.
  induction s as [|x s (w & Hw & IH)]; simpl.
  - by exists [].
  - destruct (rstrip s) as [|y r] eqn:E.
    + destruct (isspace x) eqn:Hx.
      * exists (x :: w). split; [by constructor|]. simpl in IH. by rewrite <- IH.
      * exists w. split; [done|]. simpl in *. by rewrite <- IH.
    + exists w. split; [done|]. simpl in *. by rewrite <- IH.
Qed.

Lemma strip_nil : strip [] = [].
Proof. done. Qed.

(** What [rstrip] keeps does not end in whitespace. *)
Lemma rstrip_last (s : str) :
  match rev (rstrip s) with
  | [] => True
  | c :: _ => isspace c = false
  end.
Proof.
  induction s as [|x s IH]; simpl; [done|].
  destruct (rstrip s) as [|y r] eqn:E.
  - by destruct (isspace x) eqn:Hx.
  - change (rev (x :: y :: r)) with (rev (y :: r) ++ [x]).
    destruct (rev (y :: r)) eqn:E2; [|done].
    simpl in E2. by destruct (rev r).
Qed.

(** [rstrip] is [lstrip] seen from the other end. *)
Lemma rstrip_rev (s : str) : rstrip s = rev (lstrip (rev s)).
Proof.
  destruct (rstrip_split s) as (w & Hw & Hs).
  rewrite Hs at 2. rewrite rev_app_distr.
  rewrite lstrip_blank_app by (by apply Forall_rev).
  pose proof (rstrip_last s) as Hl.
  destruct (rev (rstrip s)) as [|c r] eqn:E.
  - apply (f_equal (@rev ascii)) in E. by rewrite rev_involutive in E.
  - simpl. rewrite Hl. rewrite <- E. by rewrite rev_involutive.
Qed.

End Strip.

(** ** The splitter and its cut points *)

Section Splitter.

Lemma chunks_ne (d : Z) (s : str) : chunks d s ≠ [].
Proof.
  destruct s as [|ch rest]; simpl; [done|].
  case_decide; [done|]. by destruct (chunks _ rest).
Qed.

Lemma graft_graft (a b : str) (cs : list str) :
  graft a (graft b cs) = graft (a ++ b) cs.
Proof. destruct cs; simpl; by rewrite <- ?app_assoc. Qed.

Lemma graft_nil (cs : list str) : cs ≠ [] → graft [] cs = cs.
Proof. by destruct cs. Qed.

(** The loop state after scanning [s] holds, once finished, the trimmed
    non-empty pieces already emitted followed by those of the rest. *)
Lemma fold_split_chunks (s : str) (st : split_state) :
  split_finish (fold_left split_step s st)
  = filter (λ p, p ≠ [])
      (parts st ++ (strip <$> graft (buf st) (chunks (depth st) s))).
Proof.
  revert st. induction s as [|ch rest IH]; intros [ps b d]; simpl.
  - unfold split_finish; simpl. rewrite app_nil_r.
    case_decide as Hb; [done|].
    assert (b = []) as -> by (destruct b; [done|by destruct Hb]).
    rewrite filter_app. simpl. rewrite filter_cons_False by naive_solver.
    by rewrite app_nil_r.
  - rewrite IH. unfold split_step, depth_step; simpl.
    repeat case_decide; simpl; destruct_and?; simplify_eq.
    + by rewrite graft_graft.
    + by rewrite graft_graft.
    + rewrite graft_nil by apply chunks_ne.
      by rewrite app_nil_r, <- app_assoc.
    + by rewrite graft_graft.
Qed.

Lemma split_is_spec (s : str) : _split_top_level_args s = split_spec s.
Proof.
  unfold _split_top_level_args, split_spec. rewrite fold_split_chunks. simpl.
  by rewrite graft_nil by apply chunks_ne.
Qed.

Lemma join_cons (sep x : str) (l : list str) :
  l ≠ [] → join sep (x :: l) = x ++ sep ++ join sep l.
Proof. by destruct l. Qed.

Lemma join_graft (sep b : str) (cs : list str) :
  cs ≠ [] → join sep (graft b cs) = b ++ join sep cs.
Proof.
  destruct cs as [|c [|c' cs]]; simpl; [done|done|].
  intros _. by rewrite <- app_assoc.
Qed.

(** Cutting never loses a character: the pieces, joined by commas, are
    the input again. *)
Lemma join_chunks (d : Z) (s : str) : join (lit ",") (chunks d s) = s.
Proof.
  revert d. induction s as [|ch rest IH]; intros d; simpl; [done|].
  case_decide as Hc.
  - destruct Hc as [-> _]. rewrite join_cons by apply chunks_ne.
    simpl. by rewrite IH.
  - rewrite join_graft by apply chunks_ne. simpl. by rewrite IH.
Qed.

(** No piece contains a comma at depth 0. *)
Lemma chunks_uncut (d : Z) (s : str) :
  ∃ c cs, chunks d s = c :: cs ∧ is_Some (depth_after d c)
          ∧ Forall (λ c, is_Some (depth_after 0 c)) cs.
Proof.
  revert d. induction s as [|ch rest IH]; intros d; simpl.
  - exists [], []. simpl. eauto.
  - case_decide as Hc.
    + destruct Hc as [-> ->]. destruct (IH 0%Z) as (c & cs & -> & Hc & Hcs).
      exists [], (c :: cs). simpl. split_and!; eauto.
    + destruct (IH (depth_step d ch)) as (c & cs & -> & Hc' & Hcs).
      exists (ch :: c), cs. simpl. split_and!; [done| |done].
      by rewrite decide_False.
Qed.

(** A string with no comma at depth 0 stays in one piece. *)
Lemma chunks_depth_after (d d' : Z) (x rest : str) :
  depth_after d x = Some d' →
  chunks d (x ++ rest) = graft x (chunks d' rest).
Proof.
  revert d. induction x as [|ch x IH]; intros d; simpl.
  - intros [= ->]. by rewrite graft_nil by apply chunks_ne.
  - case_decide; [done|]. intros Hx. rewrite (IH _ Hx).
    by rewrite graft_graft.
Qed.

Lemma depth_after_blank (d : Z) (w : str) : blank w → depth_after d w = Some d.
Proof.
  induction 1 as [|c w Hc _ IH]; simpl; [done|].
  rewrite decide_False; [|intros [-> _]; done].
  unfold depth_step. rewrite !decide_False; [done|by intros ->..].
Qed.

End Splitter.

Section SplitterFacts.

Lemma chunks_blank (d : Z) (w : str) : blank w → chunks d w = [w].
Proof.
  intros Hw. rewrite <- (app_nil_r w) at 1.
  rewrite (chunks_depth_after d d) by by apply depth_after_blank.
  simpl. by rewrite app_nil_r.
Qed.

(** Trailing whitespace lands in the last piece. *)
Lemma chunks_app_blank (d : Z) (z w : str) :
  blank w →
  ∃ cs c, chunks d z = cs ++ [c] ∧ chunks d (z ++ w) = cs ++ [c ++ w].
Proof.
  intros Hw. revert d. induction z as [|ch z IH]; intros d.
  - exists [], []. simpl. by rewrite chunks_blank.
  - simpl. case_decide.
    + destruct (IH d) as (cs & c & -> & ->). by exists ([] :: cs), c.
    + destruct (IH (depth_step d ch)) as (cs & c & -> & ->).
      destruct cs as [|c0 cs]; simpl.
      * by exists [], (ch :: c).
      * by exists ((ch :: c0) :: cs), c.
Qed.

Lemma fmap_strip_graft (w : str) (cs : list str) :
  blank w → cs ≠ [] → strip <$> graft w cs = strip <$> cs.
Proof.
  intros Hw Hcs. destruct cs as [|c cs]; [done|]. simpl.
  by rewrite strip_blank_app.
Qed.

(** Trimming the whole input first does not change the result. *)
Lemma split_strip (x : str) :
  _split_top_level_args (strip x) = _split_top_level_args x.
Proof.
  rewrite !split_is_spec. unfold split_spec. f_equal.
  destruct (lstrip_split x) as (w1 & Hw1 & Hx).
  destruct (rstrip_split (lstrip x)) as (w2 & Hw2 & Hy).
  fold (strip x) in Hy.
  rewrite Hx at 2.
  rewrite (chunks_depth_after 0 0) by by apply depth_after_blank.
  rewrite fmap_strip_graft by (done || apply chunks_ne).
  rewrite Hy.
  destruct (chunks_app_blank 0 (strip x) w2 Hw2) as (cs & c & -> & ->).
  rewrite !fmap_app. simpl. by rewrite strip_app_blank.
Qed.

Lemma split_nil : _split_top_level_args [] = [].
Proof. done. Qed.

Lemma chunks_join (l : list str) :
  l ≠ [] → Forall splittable l → chunks 0 (join (lit ",") l) = l.
Proof.
  intros Hne Hl. induction Hl as [|x l (_ & _ & Hx) Hl IH]; [done|].
  destruct l as [|y l].
  - simpl. rewrite <- (app_nil_r x) at 1.
    rewrite (chunks_depth_after 0 0) by done. simpl. by rewrite app_nil_r.
  - rewrite join_cons by done.
    rewrite (chunks_depth_after 0 0) by done.
    change (lit "," ++ ?r) with (","%char :: r).
    cbn [chunks]. rewrite decide_True by done.
    rewrite IH by done. simpl. by rewrite app_nil_r.
Qed.

Lemma split_join (l : list str) :
  Forall splittable l → _split_top_level_args (join (lit ",") l) = l.
Proof.
  intros Hl. destruct (decide (l = [])) as [->|Hne]; [done|].
  rewrite split_is_spec. unfold split_spec. rewrite chunks_join by done.
  clear Hne. induction Hl as [|x l (Hx & Hs & _) Hl IH]; [done|].
  rewrite fmap_cons, Hs, filter_cons_True by done. by rewrite IH.
Qed.

End SplitterFacts.

(** C4: the splitter is a single left-to-right scan with a depth counter
    that starts at 0, goes up on '(' and down on ')', and cuts exactly at
    the commas met at depth 0; the emitted pieces are trimmed of whitespace
    and the empty ones dropped.  Stated against the cut-point description
    [split_spec]/[chunks]: the pieces joined by commas are the input, and no
    piece holds a comma at depth 0.  The three examples of the
    specification hold. *)
Theorem split_top_level_args_scan :
  (∀ s : str,
     _split_top_level_args s = split_spec s
     ∧ join (lit ",") (chunks 0 s) = s
     ∧ Forall (λ c, is_Some (depth_after 0 c)) (chunks 0 s))
  ∧ _split_top_level_args (lit "(a,b),(c,d),e")
    = [lit "(a,b)"; lit "(c,d)"; lit "e"]
  ∧ _split_top_level_args (lit "") = []
  ∧ _split_top_level_args (lit "a") = [lit "a"].
Proof.
  split; [|by vm_compute].
  intros s. split_and!.
  - apply split_is_spec.
  - apply join_chunks.
  - destruct (chunks_uncut 0 s) as (c & cs & -> & Hc & Hcs). by constructor.
Qed.

Example split_nested_tuples :
  let pieces :=
    _split_top_level_args
      (lit "(address,address,uint24,int24,address),(bool,int256,uint160),bytes") in
  pieces = [lit "(address,address,uint24,int24,address)";
            lit "(bool,int256,uint160)"; lit "bytes"]
  ∧ (length ∘ tuple_members) <$> pieces = [5; 3; 1].
Proof. split; vm_compute; reflexivity. Qed.

(** ** Searching and slicing *)

Section Search.

Lemma find_from_absent (c : ascii) (s : str) (i : Z) :
  c ∉ s → find_from c s i = (-1)%Z.
Proof.
  revert i. induction s as [|x s IH]; intros i Hc; simpl; [done|].
  apply not_elem_of_cons in Hc as [Hx Hs].
  rewrite decide_False by done. by apply IH.
Qed.

Lemma find_from_first (c : ascii) (pre rest : str) (i : Z) :
  c ∉ pre → find_from c (pre ++ c :: rest) i = (i + len pre)%Z.
Proof.
  revert i. induction pre as [|x pre IH]; intros i Hc; simpl.
  - rewrite decide_True by done. unfold len; simpl; lia.
  - apply not_elem_of_cons in Hc as [Hx Hs].
    rewrite decide_False by done. rewrite IH by done.
    unfold len; simpl; lia.
Qed.

Lemma rfind_from_absent (c : ascii) (s : str) (i acc : Z) :
  c ∉ s → rfind_from c s i acc = acc.
Proof.
  revert i acc. induction s as [|x s IH]; intros i acc Hc; simpl; [done|].
  apply not_elem_of_cons in Hc as [Hx Hs].
  rewrite decide_False by done. by apply IH.
Qed.

Lemma rfind_from_last (c : ascii) (pre post : str) (i acc : Z) :
  c ∉ post → rfind_from c (pre ++ c :: post) i acc = (i + len pre)%Z.
Proof.
  intros Hc. revert i acc. induction pre as [|x pre IH]; intros i acc; simpl.
  - rewrite decide_True by done. rewrite rfind_from_absent by done.
    unfold len; simpl; lia.
  - rewrite IH. unfold len; simpl; lia.
Qed.

Lemma find_absent c s : c ∉ s → find c s = (-1)%Z.
Proof. apply find_from_absent. Qed.

Lemma find_first c pre rest : c ∉ pre → find c (pre ++ c :: rest) = len pre.
Proof. intros. unfold find. by rewrite find_from_first. Qed.

Lemma rfind_absent c s : c ∉ s → rfind c s = (-1)%Z.
Proof. apply rfind_from_absent. Qed.

Lemma rfind_last c pre post : c ∉ post → rfind c (pre ++ c :: post) = len pre.
Proof. intros. unfold rfind. by rewrite rfind_from_last. Qed.

Lemma len_nonneg {A} (s : list A) : (0 ≤ len s)%Z.
Proof. unfold len. lia. Qed.

Lemma len_app {A} (a b : list A) : len (a ++ b) = (len a + len b)%Z.
Proof. unfold len. rewrite length_app. lia. Qed.

Lemma len_cons {A} (x : A) (a : list A) : len (x :: a) = (1 + len a)%Z.
Proof. unfold len. simpl. lia. Qed.

(** [(pre + [x] + inner + [y] + post)[len pre + 1 : len pre + 1 + len inner]] *)
Lemma slice_middle {A} (pre inner post : list A) (x y : A) :
  slice (pre ++ x :: inner ++ y :: post) (len pre + 1)
        (len pre + 1 + len inner) = inner.
Proof.
  unfold slice, clamp.
  pose proof (len_nonneg pre). pose proof (len_nonneg inner).
  pose proof (len_nonneg post).
  rewrite !len_app, !len_cons, len_app, len_cons.
  destruct (Z.ltb_spec (len pre + 1) 0); [lia|].
  destruct (Z.ltb_spec (len pre + 1 + len inner) 0); [lia|].
  rewrite !Z.min_l by lia.
  replace (Z.to_nat (len pre + 1)) with (length (pre ++ [x]))
    by (rewrite length_app; unfold len; simpl; lia).
  replace (Z.to_nat _) with (length inner) by (unfold len; lia).
  replace (pre ++ x :: inner ++ y :: post)
    with ((pre ++ [x]) ++ inner ++ y :: post) by (by rewrite <- app_assoc).
  by rewrite drop_app_length, take_app_length.
Qed.

Lemma Z_to_nat_len {A} (s : list A) : Z.to_nat (len s) = length s.
Proof. unfold len. lia. Qed.

End Search.

(** ** The signature extractor *)

Section Extractor.

Lemma extract_well_parenthesised (pre inner post : str) :
  "("%char ∉ pre → ")"%char ∉ post →
  _extract_types_from_signature (pre ++ "("%char :: inner ++ ")"%char :: post)
  = Ok (if decide (inner = []) then [] else _split_top_level_args inner).
Proof.
  intros Hpre Hpost. unfold _extract_types_from_signature.
  pose proof (len_nonneg pre). pose proof (len_nonneg inner).
  rewrite find_first by done.
  assert (rfind ")"%char (pre ++ "("%char :: inner ++ ")"%char :: post)
          = (len pre + 1 + len inner)%Z) as ->.
  { replace (pre ++ "("%char :: inner ++ ")"%char :: post)
      with ((pre ++ "("%char :: inner) ++ ")"%char :: post)
      by (by rewrite <- app_assoc).
    rewrite rfind_last by done. rewrite len_app, len_cons. lia. }
  rewrite decide_False by lia.
  rewrite slice_middle.
  case_decide as Hs.
  - case_decide; [done|].
    by rewrite <- split_strip, Hs, split_nil.
  - rewrite decide_False by (by intros ->). by rewrite split_strip.
Qed.

Lemma extract_malformed (s : str) :
  malformed s →
  _extract_types_from_signature s
  = Raise (ValueError (lit "Malformed signature: " ++ s)).
Proof.
  unfold _extract_types_from_signature.
  intros [H|[H|(a & b & c & -> & Hr & Hl)]].
  - rewrite find_absent by done. by rewrite decide_True by auto.
  - rewrite rfind_absent by done. by rewrite decide_True by auto.
  - rewrite rfind_last by done.
    assert (find "("%char (a ++ ")"%char :: b ++ "("%char :: c)
            = (len a + 1 + len b)%Z) as ->.
    { replace (a ++ ")"%char :: b ++ "("%char :: c)
        with ((a ++ ")"%char :: b) ++ "("%char :: c)
        by (by rewrite <- app_assoc).
      rewrite find_first by done. rewrite len_app, len_cons. lia. }
    pose proof (len_nonneg b). rewrite decide_True by lia. done.
Qed.

(** Every string is either malformed or has a first '(' followed, later,
    by a last ')'. *)
Lemma malformed_or_parenthesised (s : str) :
  malformed s
  ∨ ∃ pre inner post, s = pre ++ "("%char :: inner ++ ")"%char :: post
                      ∧ ("("%char ∉ pre) ∧ (")"%char ∉ post).
Proof.
  destruct (decide ("("%char ∈ s)) as [Hl|Hl]; [|left; by left].
  destruct (decide (")"%char ∈ s)) as [Hr|Hr]; [|left; right; by left].
  apply list_elem_of_split_l in Hl as (pre & rest & Hs & Hpre).
  apply list_elem_of_split_r in Hr as (pre' & post & Hs' & Hpost).
  assert (pre ++ "("%char :: rest = pre' ++ ")"%char :: post) as Heq by congruence.
  apply app_eq_app in Heq as [k [[Hk1 Hk2]|[Hk1 Hk2]]].
  - (* the ')' comes first *)
    destruct k as [|x k]; [simplify_eq|].
    simpl in Hk2. injection Hk2 as Hx Hp. subst x.
    left; right; right. exists pre', k, rest. split_and!.
    + by rewrite Hs', Hp.
    + by rewrite <- Hp.
    + by rewrite <- Hk1.
  - (* the '(' comes first *)
    destruct k as [|x k]; [simplify_eq|].
    simpl in Hk2. injection Hk2 as Hx Hp. subst x.
    right. exists pre, k, post. split_and!; [|done..].
    by rewrite Hs, Hp.
Qed.

Lemma parenthesised_not_malformed (pre inner post : str) :
  "("%char ∉ pre → ")"%char ∉ post →
  ¬ malformed (pre ++ "("%char :: inner ++ ")"%char :: post).
Proof.
  intros Hpre Hpost Hm. apply extract_malformed in Hm.
  by rewrite extract_well_parenthesised in Hm.
Qed.

End Extractor.

(** C6: the extractor raises its malformed-signature error exactly when
    '(' is absent, ')' is absent, or the last ')' lies before the first '(';
    otherwise the signature has a first '(' and a later last ')', and the
    result is the empty list when the text strictly between them is empty
    and the splitter's result on that text otherwise.  In particular
    "swap()" gives [] and "foo(uint256)" gives ["uint256"]. *)
Theorem extract_types_from_signature_spec :
  (∀ signature : str,
     (_extract_types_from_signature signature
      = Raise (ValueError (lit "Malformed signature: " ++ signature))
      ↔ malformed signature)
     ∧ ((∃ e, _extract_types_from_signature signature = Raise e)
        ↔ malformed signature)
     ∧ (¬ malformed signature ↔
        ∃ pre inner post,
          signature = pre ++ "("%char :: inner ++ ")"%char :: post
          ∧ ("("%char ∉ pre) ∧ (")"%char ∉ post))
     ∧ (∀ pre inner post,
          signature = pre ++ "("%char :: inner ++ ")"%char :: post →
          "("%char ∉ pre → ")"%char ∉ post →
          _extract_types_from_signature signature
          = Ok (if decide (inner = []) then []
                else _split_top_level_args inner)))
  ∧ _extract_types_from_signature (lit "swap()") = Ok []
  ∧ _extract_types_from_signature (lit "foo(uint256)") = Ok [lit "uint256"].
Proof.
  split; [|by vm_compute].
  intros s.
  assert (∀ e, _extract_types_from_signature s = Raise e → malformed s) as Hraise.
  { intros e He.
    destruct (malformed_or_parenthesised s)
      as [Hm|(pre & inner & post & -> & Hpre & Hpost)]; [done|].
    by rewrite extract_well_parenthesised in He. }
  split_and!.
  - split; [apply Hraise|apply extract_malformed].
  - split; [intros [e He]; by eapply Hraise|].
    intros Hm. eexists. by apply extract_malformed.
  - split.
    + intros Hn. by destruct (malformed_or_parenthesised s).
    + intros (pre & inner & post & -> & Hpre & Hpost).
      by apply parenthesised_not_malformed.
  - intros pre inner post -> Hpre Hpost. by apply extract_well_parenthesised.
Qed.

(** ** Lengths: what the recursive calls of the post-processor receive *)

Section Lengths.

Lemma lstrip_length (s : str) : length (lstrip s) ≤ length s.
Proof.
  induction s as [|c s IH]; simpl; [done|].
  destruct (isspace c); simpl; lia.
Qed.

Lemma rstrip_length (s : str) : length (rstrip s) ≤ length s.
Proof.
  induction s as [|c s IH]; simpl; [done|].
  destruct (rstrip s); [destruct (isspace c)|]; simpl in *; lia.
Qed.

Lemma strip_length (s : str) : length (strip s) ≤ length s.
Proof.
  unfold strip. pose proof (rstrip_length (lstrip s)).
  pose proof (lstrip_length s). lia.
Qed.

Lemma chunks_length (d : Z) (s : str) :
  Forall (λ c, length c ≤ length s) (chunks d s).
Proof.
  revert d. induction s as [|ch rest IH]; intros d; simpl.
  - by repeat constructor.
  - case_decide.
    + constructor; [simpl; lia|].
      eapply Forall_impl; [apply IH|]. simpl. intros; lia.
    + specialize (IH (depth_step d ch)).
      destruct (chunks (depth_step d ch) rest) as [|c cs]; simpl.
      * apply List.Forall_cons; [simpl; lia|apply List.Forall_nil].
      * apply Forall_cons in IH as [Hc Hcs]. constructor; [simpl; lia|].
        eapply Forall_impl; [apply Hcs|]. simpl. intros; lia.
Qed.

Lemma split_length (s : str) :
  Forall (λ m, length m ≤ length s) (_split_top_level_args s).
Proof.
  rewrite split_is_spec. unfold split_spec. apply Forall_forall.
  intros m [_ Hm]%list_elem_of_filter.
  apply list_elem_of_fmap in Hm as (c & -> & Hc).
  pose proof (chunks_length 0 s) as Hl.
  rewrite Forall_forall in Hl. specialize (Hl c Hc).
  pose proof (strip_length c). lia.
Qed.

Lemma slice_inner_length {A} (s : list A) :
  s ≠ [] → length (slice s 1 (-1)) < length s.
Proof.
  intros Hs. unfold slice, clamp, len. simpl.
  destruct s as [|x s]; [done|]. rewrite length_take, length_drop. simpl. lia.
Qed.

Lemma tuple_members_length (t : str) :
  t ≠ [] → Forall (λ m, length m < length t) (tuple_members t).
Proof.
  intros Ht. unfold tuple_members.
  eapply Forall_impl; [apply split_length|]. simpl.
  intros m Hm. pose proof (slice_inner_length t Ht). lia.
Qed.

Lemma rfind_from_bound (c : ascii) (s : str) (i acc : Z) :
  rfind_from c s i acc = acc
  ∨ (i ≤ rfind_from c s i acc < i + len s)%Z.
Proof.
  revert i acc. induction s as [|x s IH]; intros i acc; simpl; [by left|].
  rewrite len_cons. pose proof (len_nonneg s).
  destruct (IH (i + 1)%Z (if decide (x = c) then i else acc)) as [->|?].
  - case_decide; [right; lia|by left].
  - right; lia.
Qed.

Lemma rfind_bound (c : ascii) (s : str) : (-1 ≤ rfind c s < len s)%Z.
Proof.
  unfold rfind. pose proof (len_nonneg s).
  destruct (rfind_from_bound c s 0 (-1)) as [->|?]; lia.
Qed.

Lemma array_base_length (t : str) :
  t ≠ [] → length (array_base t) < length t.
Proof.
  intros Ht. unfold array_base, slice_to, clamp.
  pose proof (rfind_bound "["%char t) as Hr. revert Hr.
  generalize (rfind "["%char t). intros r Hr.
  rewrite length_take. unfold len in *.
  destruct t as [|x t]; [done|]. simpl length in *.
  destruct (Z.ltb_spec r 0); lia.
Qed.

Lemma endswith_nonempty (p s : str) : p ≠ [] → endswith p s = true → s ≠ [].
Proof.
  intros Hp He ->. unfold endswith in He.
  destruct p as [|a p]; [done|]. simpl in He. by destruct (rev p).
Qed.

Lemma startswith_nonempty (p s : str) :
  p ≠ [] → startswith p s = true → s ≠ [].
Proof. intros Hp He ->. by destruct p. Qed.

Lemma remove_char_length (c : ascii) (s : str) :
  length (remove_char c s) ≤ length s.
Proof. apply length_filter. Qed.

End Lengths.

(** ** The post-processor: fuel and unfolding *)

Section PostProcessFacts.

Variable to_checksum_address : value → result value.

Local Abbreviation body := (postprocess_body to_checksum_address).
Local Abbreviation run_fuel := (postprocess_fuel to_checksum_address).
Local Abbreviation pv := (_postprocess_value to_checksum_address).

Lemma fmap_run_ext {A B} (f g : A → option (result B)) (l : list A) :
  (∀ a, f a = g a) → fmap_run f l = fmap_run g l.
Proof. intros Hfg. induction l as [|a l IH]; simpl; [done|]. by rewrite Hfg, IH. Qed.

Lemma render_members_ext rec rec' (subtypes : list str) (i : nat) (v : value) :
  Forall (λ m, ∀ x, rec m x = rec' m x) subtypes →
  render_members rec subtypes i v = render_members rec' subtypes i v.
Proof.
  intros Hs. revert i. induction Hs as [|m ms Hm _ IH]; intros i; simpl; [done|].
  destruct (py_getitem v i) as [x|e]; simpl; [|done].
  rewrite Hm. destruct (rec' m x) as [[y|e]|]; simpl; [|done..].
  by rewrite IH.
Qed.

(** The recursive calls are made on the array base, or on the tuple
    members, and on nothing else. *)
Lemma body_ext rec rec' (sol_type : str) (v : value) :
  let t := remove_char " "%char sol_type in
  (is_array sol_type = true → ∀ x, rec (array_base t) x = rec' (array_base t) x) →
  (is_tuple sol_type = true →
   Forall (λ m, ∀ x, rec m x = rec' m x) (tuple_members t)) →
  body rec sol_type v = body rec' sol_type v.
Proof.
  intros t Ha Ht. unfold postprocess_body, is_array, is_tuple in *.
  fold t in Ha, Ht |- *.
  destruct (endswith (lit "]") t).
  - destruct (py_iter v) as [items|e]; simpl; [|done].
    by rewrite (fmap_run_ext _ _ _ (Ha eq_refl)).
  - destruct (startswith (lit "(") t && endswith (lit ")") t); [|done].
    by rewrite (render_members_ext rec rec') by by apply Ht.
Qed.

Lemma callee_shorter (sol_type : str) :
  let t := remove_char " "%char sol_type in
  (is_array sol_type = true → length (array_base t) < length sol_type)
  ∧ (is_tuple sol_type = true →
     Forall (λ m, length m < length sol_type) (tuple_members t)).
Proof.
  intros t. pose proof (remove_char_length " "%char sol_type) as Hle.
  fold t in Hle. unfold is_array, is_tuple. fold t. split.
  - intros He. apply endswith_nonempty in He; [|done].
    pose proof (array_base_length t He). lia.
  - intros [_ [Hs _]%andb_true_iff]%andb_true_iff.
    apply startswith_nonempty in Hs; [|done].
    eapply Forall_impl; [by apply tuple_members_length|].
    simpl. intros; lia.
Qed.

Lemma body_ext_shorter rec rec' (sol_type : str) (v : value) :
  (∀ t' x, length t' < length sol_type → rec t' x = rec' t' x) →
  body rec sol_type v = body rec' sol_type v.
Proof.
  intros H. destruct (callee_shorter sol_type) as [Ha Ht].
  apply body_ext.
  - intros Hi x. apply H. by apply Ha.
  - intros Hi. eapply Forall_impl; [by apply Ht|]. simpl. intros m Hm x.
    by apply H.
Qed.

Lemma fmap_run_total {A B} (f : A → option (result B)) (l : list A) :
  (∀ a, is_Some (f a)) → is_Some (fmap_run f l).
Proof.
  intros Hf. induction l as [|a l [r Hr]]; simpl; [eauto|].
  destruct (Hf a) as [[b|e] ->]; simpl; [|eauto].
  rewrite Hr. destruct r; simpl; eauto.
Qed.

Lemma render_members_total rec (subtypes : list str) (i : nat) (v : value) :
  Forall (λ m, ∀ x, is_Some (rec m x)) subtypes →
  is_Some (render_members rec subtypes i v).
Proof.
  intros Hs. revert i. induction Hs as [|m ms Hm _ IH]; intros i; simpl; [eauto|].
  destruct (py_getitem v i) as [x|e]; simpl; [|eauto].
  destruct (Hm x) as [[y|e] ->]; simpl; [|eauto].
  destruct (IH (S i)) as [[ys|e] ->]; simpl; eauto.
Qed.

Lemma body_total rec (sol_type : str) (v : value) :
  (∀ t' x, length t' < length sol_type → is_Some (rec t' x)) →
  is_Some (body rec sol_type v).
Proof.
  intros H. destruct (callee_shorter sol_type) as [Ha Ht].
  unfold postprocess_body, is_array, is_tuple in *.
  set (t := remove_char " "%char sol_type) in *.
  destruct (endswith (lit "]") t).
  - destruct (py_iter v) as [items|e]; simpl; [|eauto].
    destruct (fmap_run_total (rec (array_base t)) items) as [[out|e] ->];
      simpl; eauto.
  - destruct (startswith (lit "(") t && endswith (lit ")") t).
    + destruct (render_members_total rec (tuple_members t) 0 v) as [[es|e] ->];
        simpl; eauto.
      eapply Forall_impl; [by apply Ht|]. simpl. eauto.
    + repeat case_match; eauto.
Qed.

Lemma fuel_stable (n : nat) (sol_type : str) (v : value) :
  length sol_type < n →
  is_Some (run_fuel n sol_type v)
  ∧ run_fuel n sol_type v = run_fuel (S (length sol_type)) sol_type v.
Proof.
  revert sol_type v. induction (lt_wf n) as [n _ IH]. intros sol_type v Hn.
  destruct n as [|n]; [lia|]. simpl. split.
  - apply body_total. intros t' x Ht'. apply IH; lia.
  - apply body_ext_shorter. intros t' x Ht'.
    destruct (IH n ltac:(lia) t' x ltac:(lia)) as [_ ->].
    destruct (IH (length sol_type) ltac:(lia) t' x ltac:(lia)) as [_ ->].
    done.
Qed.

(** Any fuel above the length of the type string gives the result. *)
Lemma postprocess_fuel_enough (n : nat) (sol_type : str) (v : value) :
  length sol_type < n → run_fuel n sol_type v = Some (pv sol_type v).
Proof.
  intros Hn. destruct (fuel_stable n sol_type v Hn) as [[r Hr] Heq].
  unfold _postprocess_value. rewrite <- Heq, Hr. done.
Qed.

Lemma postprocess_unfold (sol_type : str) (v : value) :
  body (λ t x, Some (pv t x)) sol_type v = Some (pv sol_type v).
Proof.
  rewrite <- (postprocess_fuel_enough (S (length sol_type))) by lia. simpl.
  apply body_ext_shorter. intros t' x Ht'.
  by rewrite postprocess_fuel_enough.
Qed.

Lemma fmap_run_some {A B} (g : A → result B) (l : list A) :
  fmap_run (λ a, Some (g a)) l = Some (rmap g l).
Proof.
  induction l as [|a l IH]; simpl; [done|].
  destruct (g a); simpl; [|done]. rewrite IH. by destruct (rmap g l).
Qed.

Lemma rmap_Ok {A B} (g : A → result B) (l : list A) (out : list B) :
  rmap g l = Ok out ↔ Forall2 (λ a b, g a = Ok b) l out.
Proof.
  revert out. induction l as [|a l IH]; intros out; simpl.
  - split; [intros [= <-]; constructor|by inversion 1].
  - split.
    + destruct (g a) as [b|e] eqn:Ha; simpl; [|done].
      destruct (rmap g l) as [bs|e] eqn:Hl; simpl; [|done].
      intros [= <-]. constructor; [done|]. by apply IH.
    + inversion 1 as [|? b ? bs Ha Hl]; subst. rewrite Ha. simpl.
      apply IH in Hl. by rewrite Hl.
Qed.

End PostProcessFacts.

(** ** The post-processor, case by case *)

Section PostProcessCases.

Variable to_checksum_address : value → result value.

Local Abbreviation body := (postprocess_body to_checksum_address).
Local Abbreviation pv := (_postprocess_value to_checksum_address).

Lemma postprocess_array_eq (sol_type : str) (v : value) :
  is_array sol_type = true →
  pv sol_type v
  = (try items <- py_iter v in
     try out <- rmap (pv (array_base (remove_char " "%char sol_type))) items in
     Ok (VList out)).
Proof.
  intros Ha. pose proof (postprocess_unfold to_checksum_address sol_type v) as Hu.
  unfold postprocess_body, is_array in *. rewrite Ha in Hu.
  destruct (py_iter v) as [items|e]; simpl in *; [|congruence].
  rewrite fmap_run_some in Hu. simpl in Hu.
  destruct (rmap _ items); simpl in *; congruence.
Qed.

Lemma postprocess_tuple_eq (sol_type : str) (v : value) :
  is_tuple sol_type = true →
  Some (pv sol_type v)
  = (run entries <- render_members (λ t x, Some (pv t x))
                      (tuple_members (remove_char " "%char sol_type)) 0 v in
     Some (Ok (VDict entries))).
Proof.
  intros Ht. rewrite <- postprocess_unfold.
  unfold postprocess_body, is_tuple in *.
  apply andb_true_iff in Ht as [Ha Ht]. apply negb_true_iff in Ha.
  by rewrite Ha, Ht.
Qed.

Lemma postprocess_elementary_eq (sol_type : str) (v : value) :
  is_elementary sol_type = true →
  pv sol_type v
  = (let t := remove_char " "%char sol_type in
     if decide (t = lit "address") then to_checksum_address v
     else if startswith (lit "bytes") t then hex_string v
     else Ok v).
Proof.
  intros He. pose proof (postprocess_unfold to_checksum_address sol_type v) as Hu.
  unfold postprocess_body, is_elementary, is_tuple, is_array in *.
  set (t := remove_char " "%char sol_type) in *. cbv zeta.
  apply andb_true_iff in He as [Ha Ht]. apply negb_true_iff in Ha, Ht.
  rewrite Ha in Hu, Ht. cbn [negb andb] in Ht. rewrite Ht in Hu.
  destruct (decide (t = lit "address")) as [Haddr|Haddr]; [congruence|].
  destruct (startswith (lit "bytes") t) eqn:Hb; cbn [andb] in Hu.
  - destruct (decide (t = lit "bytes")) as [Hbytes|Hbytes].
    + rewrite bool_decide_false in Hu by (by intros ?). congruence.
    + rewrite bool_decide_true in Hu by done. congruence.
  - rewrite decide_False in Hu; [congruence|].
    intros Hbytes. by rewrite Hbytes in Hb.
Qed.

Lemma endswith_snoc (c c' : ascii) (s : str) :
  endswith [c] (s ++ [c']) = bool_decide (c = c').
Proof.
  unfold endswith. rewrite rev_unit. simpl. by rewrite andb_true_r.
Qed.

Lemma array_suffix (base dim : str) :
  "["%char ∉ dim →
  let t := base ++ lit "[" ++ dim ++ lit "]" in
  endswith (lit "]") t = true ∧ array_base t = base.
Proof.
  intros Hd t. split.
  - subst t. replace (base ++ lit "[" ++ dim ++ lit "]")
      with ((base ++ lit "[" ++ dim) ++ ["]"%char])
      by (by rewrite <- !app_assoc).
    change (lit "]") with ["]"%char]. by rewrite endswith_snoc.
  - unfold array_base, t. change (lit "[" ++ ?r) with ("["%char :: r).
    rewrite rfind_last.
    2:{ intros [H|H]%elem_of_app; [done|]. by apply list_elem_of_singleton in H. }
    unfold slice_to, clamp. pose proof (len_nonneg base).
    destruct (Z.ltb_spec (len base) 0); [lia|].
    rewrite len_app. pose proof (len_nonneg ("["%char :: dim ++ lit "]")).
    rewrite Z.min_l by lia. rewrite Z_to_nat_len. by rewrite take_app_length.
Qed.

Lemma bytes_hex_cons (x : byte) (b : list byte) :
  bytes_hex (x :: b) = hex_of_byte x ++ bytes_hex b.
Proof. done. Qed.

Lemma hex_of_byte_lower (x : byte) :
  Forall (λ c, is_lower_hex c = true) (hex_of_byte x).
Proof.
  unfold hex_of_byte.
  destruct x;
    (apply List.Forall_cons;
     [vm_compute; reflexivity
     |apply List.Forall_cons; [vm_compute; reflexivity|apply List.Forall_nil]]).
Qed.

Lemma bytes_hex_lower (b : list byte) :
  length (bytes_hex b) = 2 * length b
  ∧ Forall (λ c, is_lower_hex c = true) (bytes_hex b).
Proof.
  induction b as [|x b [IHl IHf]]; [by split|].
  rewrite bytes_hex_cons. split.
  - rewrite length_app, IHl. simpl. lia.
  - apply Forall_app. split; [apply hex_of_byte_lower|done].
Qed.

End PostProcessCases.

Section PostProcessClaims.

Variable to_checksum_address : value → result value.

Local Abbreviation pv := (_postprocess_value to_checksum_address).

Lemma postprocess_array_general (sol_type base dim : str) (v : value) :
  remove_char " "%char sol_type = base ++ lit "[" ++ dim ++ lit "]" →
  "["%char ∉ dim →
  pv sol_type v
  = (try items <- py_iter v in
     try out <- rmap (pv base) items in Ok (VList out)).
Proof.
  intros Ht Hd. destruct (array_suffix base dim Hd) as [He Hb].
  rewrite postprocess_array_eq by (unfold is_array; by rewrite Ht).
  by rewrite Ht, Hb.
Qed.

Lemma postprocess_address (v : value) :
  pv (lit "address") v = to_checksum_address v.
Proof. by rewrite postprocess_elementary_eq. Qed.

Lemma render_members_short rec (subtypes : list str) (i : nat)
    (items : list value) :
  i ≤ length items → length items < i + length subtypes →
  (∀ m x, is_Some (rec m x)) →
  ∃ e, render_members rec subtypes i (VTuple items) = Some (Raise e).
Proof.
  intros Hi Hlen Hrec. revert i Hi Hlen.
  induction subtypes as [|m ms IH]; intros i Hi Hlen; simpl in *; [lia|].
  destruct (items !! i) as [x|] eqn:Hx; simpl; [|eauto].
  apply lookup_lt_Some in Hx.
  destruct (Hrec m x) as [[y|e] ->]; simpl; [|eauto].
  destruct (IH (S i)) as [e ->]; [lia..|]. simpl. eauto.
Qed.

Lemma render_members_index_error rec (subtypes : list str) (i : nat)
    (items : list value) :
  i ≤ length items → length items < i + length subtypes →
  (∀ j m x, subtypes !! j = Some m → items !! (i + j) = Some x →
            ∃ y, rec m x = Some (Ok y)) →
  render_members rec subtypes i (VTuple items) = Some (Raise IndexError).
Proof.
  intros Hi Hlen Hrec. revert i Hi Hlen Hrec.
  induction subtypes as [|m ms IH]; intros i Hi Hlen Hrec; simpl in *; [lia|].
  destruct (items !! i) as [x|] eqn:Hx; simpl; [|done].
  pose proof (lookup_lt_Some _ _ _ Hx).
  destruct (Hrec 0 m x) as [y ->]; [done|by rewrite Nat.add_0_r|]. simpl.
  rewrite IH; [done|lia..|].
  intros j m' x' Hm' Hx'. apply (Hrec (S j)); [done|].
  by rewrite Nat.add_succ_r.
Qed.

Lemma render_members_take rec (subtypes : list str) (i : nat)
    (items : list value) :
  render_members rec subtypes i (VTuple items)
  = render_members rec subtypes i
      (VTuple (take (i + length subtypes) items)).
Proof.
  revert i. induction subtypes as [|m ms IH]; intros i; simpl; [done|].
  rewrite lookup_take_lt by lia. rewrite Nat.add_succ_r.
  destruct (items !! i) as [x|]; simpl; [|done].
  destruct (rec m x) as [[y|e]|]; simpl; [|done..].
  by rewrite (IH (S i)).
Qed.

(** C1 (amended): for a tuple type string whose interior splits into n
    member types, a decoded tuple with fewer than n elements makes the
    post-processor fail (with IndexError as soon as the elements present
    have rendered); a decoded tuple with more than n elements does not:
    the surplus elements are ignored and the result is that of the first
    n elements. *)
Theorem postprocess_tuple_arity (sol_type : str) (items : list value) :
  is_tuple sol_type = true →
  let subtypes := tuple_members (remove_char " "%char sol_type) in
  (length items < length subtypes →
   (∃ e, pv sol_type (VTuple items) = Raise e)
   ∧ ((∀ j m x, subtypes !! j = Some m → items !! j = Some x →
                ∃ y, pv m x = Ok y) →
      pv sol_type (VTuple items) = Raise IndexError))
  ∧ (length subtypes ≤ length items →
     pv sol_type (VTuple items)
     = pv sol_type (VTuple (take (length subtypes) items))).
Proof.
  intros Ht subtypes.
  pose proof (postprocess_tuple_eq to_checksum_address sol_type) as Hu.
  specialize (Hu (VTuple items) Ht) as Hu1. fold subtypes in Hu, Hu1.
  split.
  - intros Hlen. split.
    + destruct (render_members_short (λ t x, Some (pv t x)) subtypes 0 items)
        as [e He]; [lia|lia|eauto|].
      rewrite He in Hu1. simpl in Hu1. exists e. congruence.
    + intros Hok.
      rewrite render_members_index_error in Hu1; [simpl in Hu1; congruence|lia..|].
      intros j m x Hm Hx. destruct (Hok j m x Hm Hx) as [y ->]. eauto.
  - intros _. specialize (Hu (VTuple (take (length subtypes) items)) Ht).
    rewrite render_members_take in Hu1.
    simpl in Hu1. congruence.
Qed.

(** C7: when the normalized type string ends in a bracket suffix, the
    post-processor strips exactly the rightmost "[...]" and renders every
    element of the sequence with the remaining base type, in order, the
    first failure being the result; so "T[][]" loses one dimension per
    call, and "address[]" on two raw addresses gives the two checksummed
    addresses in order. *)
Theorem postprocess_array_elementwise :
  (∀ (sol_type base dim : str) (items : list value),
     remove_char " "%char sol_type = base ++ lit "[" ++ dim ++ lit "]" →
     "["%char ∉ dim →
     let r := try out <- rmap (pv base) items in Ok (VList out) in
     pv sol_type (VTuple items) = r
     ∧ pv sol_type (VList items) = r
     ∧ (∀ out, r = Ok (VList out)
               ↔ Forall2 (λ x y, pv base x = Ok y) items out))
  ∧ (∀ (T : str) (items : list value),
       pv (T ++ lit "[][]") (VTuple items)
       = (try out <- rmap (pv (remove_char " "%char T ++ lit "[]")) items in
          Ok (VList out)))
  ∧ (∀ a1 a2 : value,
       pv (lit "address[]") (VTuple [a1; a2])
       = (try c1 <- to_checksum_address a1 in
          try c2 <- to_checksum_address a2 in
          Ok (VList [c1; c2]))).
Proof.
  split_and!.
  - intros sol_type base dim items Ht Hd r. split_and!.
    + by rewrite (postprocess_array_general sol_type base dim).
    + by rewrite (postprocess_array_general sol_type base dim).
    + intros out. rewrite <- rmap_Ok. subst r.
      destruct (rmap (pv base) items); simpl; naive_solver.
  - intros T items.
    rewrite (postprocess_array_general _ (remove_char " "%char T ++ lit "[]") []);
      [done| |by apply not_elem_of_nil].
    unfold remove_char. rewrite filter_app, <- app_assoc. done.
  - intros a1 a2.
    rewrite (postprocess_array_general _ (lit "address") []);
      [|done|by apply not_elem_of_nil].
    cbn [rmap py_iter rbind]. rewrite postprocess_address.
    destruct (to_checksum_address a1); cbn [rbind]; [|done].
    rewrite postprocess_address.
    by destruct (to_checksum_address a2).
Qed.

(** C8: for an elementary type (neither array nor tuple after the
    spaces are removed) the post-processor returns the external checksum
    when the type is "address", the "0x"-prefixed lower-case hex of the
    value when the type is "bytes" or starts with "bytes" (bytesN), and the
    value unchanged in every other case; "bytes32" on 32 bytes gives "0x"
    and 64 lower-case hex characters, "bytes" on the empty value "0x". *)
Theorem postprocess_elementary :
  (∀ (sol_type : str) (v : value),
     is_elementary sol_type = true →
     let t := remove_char " "%char sol_type in
     (t = lit "address" → pv sol_type v = to_checksum_address v)
     ∧ (startswith (lit "bytes") t = true → pv sol_type v = hex_string v)
     ∧ (t ≠ lit "address" → startswith (lit "bytes") t = false →
        pv sol_type v = Ok v))
  ∧ (∀ b : list byte,
       hex_string (VBytes b) = Ok (VStr (lit "0x" ++ bytes_hex b))
       ∧ length (bytes_hex b) = 2 * length b
       ∧ Forall (λ c, is_lower_hex c = true) (bytes_hex b))
  ∧ (∀ b : list byte,
       length b = 32 →
       pv (lit "bytes32") (VBytes b) = Ok (VStr (lit "0x" ++ bytes_hex b))
       ∧ length (bytes_hex b) = 64)
  ∧ pv (lit "bytes") (VBytes []) = Ok (VStr (lit "0x"))
  ∧ (∀ v : value,
       pv (lit "bool") v = Ok v ∧ pv (lit "uint256") v = Ok v
       ∧ pv (lit "int128") v = Ok v ∧ pv (lit "string") v = Ok v).
Proof.
  split_and!.
  - intros sol_type v He t. rewrite (postprocess_elementary_eq _ _ _ He).
    cbv zeta. fold t. clearbody t. split_and!.
    + intros ->. done.
    + intros Hb. rewrite Hb. case_decide as Ha; [|done].
      by rewrite Ha in Hb.
    + intros Ha Hb. by rewrite Hb, decide_False.
  - intros b. split; [done|apply bytes_hex_lower].
  - intros b Hb. rewrite postprocess_elementary_eq by done. split; [done|].
    destruct (bytes_hex_lower b) as [-> _]. lia.
  - by rewrite postprocess_elementary_eq.
  - intros v. by rewrite !postprocess_elementary_eq.
Qed.

End PostProcessClaims.

(** C1 (as stated, refuted): a decoded tuple with more elements than the
    tuple type has members is rendered, not rejected. *)
Lemma postprocess_tuple_surplus_accepted :
  length (tuple_members (lit "(uint256)")) = 1
  ∧ _postprocess_value checksum_stub (lit "(uint256)") (VTuple [VInt 1; VInt 2])
    = Ok (VDict [(lit "_0", VInt 1)]).
Proof. split; vm_compute; reflexivity. Qed.

Example render_tuple :
  _postprocess_value checksum_stub (lit "(bool,int256,uint160)")
    (VTuple [VBool true; VInt (-5); VInt 10])
  = Ok (VDict [(lit "_0", VBool true); (lit "_1", VInt (-5));
               (lit "_2", VInt 10)]).
Proof. vm_compute. reflexivity. Qed.

(** A two-member tuple type against a one-element value. *)
Lemma postprocess_tuple_arity_witness :
  (∃ e, _postprocess_value checksum_stub (lit "(uint256, bytes3)")
          (VTuple [VInt 1]) = Raise e)
  ∧ _postprocess_value checksum_stub (lit "(uint256, bytes3)")
      (VTuple [VInt 1]) = Raise IndexError.
Proof.
  destruct (postprocess_tuple_arity checksum_stub (lit "(uint256, bytes3)")
              [VInt 1] eq_refl) as [Hshort _].
  destruct Hshort as [H1 H2]; [vm_compute; lia|].
  split; [exact H1|]. apply H2.
  intros [|[|j]] m x Hm Hx; vm_compute in Hm, Hx; simplify_eq.
  exists (VInt 1). vm_compute. reflexivity.
Defined.

(** ** Well-formed type strings *)

Section WellFormed.

Lemma ty_nested_ind (P : ty → Prop) :
  (∀ n, P (Elementary n)) →
  (∀ ms, Forall P ms → P (Tuple ms)) →
  (∀ e k, P e → P (Array e k)) →
  ∀ t, P t.
Proof.
  intros HE HT HA. fix IH 1. intros [n|ms|e k].
  - apply HE.
  - apply HT. induction ms as [|m ms IHms]; constructor; [apply IH|apply IHms].
  - apply HA, IH.
Qed.

Lemma alnum_props (c : ascii) :
  is_alnum c = true →
  isspace c = false
  ∧ c ≠ "("%char ∧ c ≠ ")"%char ∧ c ≠ ","%char
  ∧ c ≠ "["%char ∧ c ≠ "]"%char.
Proof.
  destruct c as [[] [] [] [] [] [] [] []]; intros H; vm_compute in H;
    try discriminate H; split_and!; done.
Qed.

Lemma decimal_alnum (k : nat) : Forall (λ c, is_alnum c = true) (decimal k).
Proof.
  unfold decimal. generalize (Nat.to_uint k). intros u.
  induction u; simpl; by constructor.
Qed.

Lemma depth_after_neutral (d : Z) (p : str) :
  Forall neutral p → depth_after d p = Some d.
Proof.
  induction 1 as [|c p (H1 & H2 & H3) _ IH]; simpl; [done|].
  rewrite decide_False by (by intros [? _]).
  unfold depth_step. by rewrite !decide_False.
Qed.

Lemma depth_after_app (d d' : Z) (x y : str) :
  depth_after d x = Some d' → depth_after d (x ++ y) = depth_after d' y.
Proof.
  revert d. induction x as [|c x IH]; intros d; simpl.
  - by intros [= ->].
  - case_decide; [done|]. apply IH.
Qed.

Lemma depth_after_join (d : Z) (l : list str) :
  d ≠ 0%Z → Forall (λ x, depth_after d x = Some d) l →
  depth_after d (join (lit ",") l) = Some d.
Proof.
  intros Hd. induction 1 as [|x l Hx Hl IH]; [done|].
  destruct l as [|y l]; [done|]. rewrite join_cons by done.
  rewrite (depth_after_app d d) by done.
  change (lit "," ++ ?r) with (","%char :: r). cbn [depth_after].
  rewrite decide_False by (by intros [_ ?]). exact IH.
Qed.

Lemma join_Forall (P : ascii → Prop) (sep : str) (l : list str) :
  Forall P sep → Forall (Forall P) l → Forall P (join sep l).
Proof.
  intros Hsep. induction 1 as [|x l Hx Hl IH]; [constructor|].
  destruct l as [|y l]; [done|]. rewrite join_cons by done.
  by rewrite !Forall_app.
Qed.

Lemma strip_no_space (s : str) :
  Forall (λ c, isspace c = false) s → strip s = s.
Proof.
  intros Hs. unfold strip.
  assert (lstrip s = s) as -> by (destruct Hs as [|c s Hc]; simpl; [done|by rewrite Hc]).
  induction Hs as [|c s Hc Hs IH]; simpl; [done|].
  rewrite IH. destruct s; [by rewrite Hc|done].
Qed.

Lemma remove_space_id (s : str) :
  Forall (λ c, isspace c = false) s → remove_char " "%char s = s.
Proof.
  unfold remove_char. induction 1 as [|c s Hc Hs IH]; [done|].
  rewrite filter_cons_True by (by intros ->). by rewrite IH.
Qed.

Lemma slice_inner {A} (x y : A) (s : list A) :
  slice (x :: s ++ [y]) 1 (-1) = s.
Proof.
  unfold slice. set (n := len (x :: s ++ [y])).
  assert (n = 2 + len s)%Z as Hn
    by (subst n; rewrite len_cons, len_app; unfold len; simpl; lia).
  pose proof (len_nonneg s).
  assert (clamp n 1 = 1%Z) as ->
    by (unfold clamp; destruct (Z.ltb_spec 1 0); lia).
  assert (clamp n (-1) = (1 + len s)%Z) as ->
    by (unfold clamp; destruct (Z.ltb_spec (-1) 0); lia).
  change (Z.to_nat 1) with 1.
  replace (Z.to_nat _) with (length s) by (unfold len; lia).
  rewrite skipn_cons, drop_0. by rewrite take_app_length.
Qed.

Lemma show_wf (t : ty) :
  well_formed t = true →
  show t ≠ []
  ∧ Forall (λ c, isspace c = false) (show t)
  ∧ (∀ d, (0 ≤ d)%Z → depth_after d (show t) = Some d).
Proof.
  induction t as [n|ms IH|e k IH] using ty_nested_ind; simpl; intros Hwf.
  - apply andb_true_iff in Hwf as [Hne Hal].
    apply negb_true_iff, bool_decide_eq_false in Hne.
    assert (Forall (λ c, is_alnum c = true) n) as Hn.
    { apply Forall_forall. intros c Hc. rewrite forallb_forall in Hal.
      apply Hal. by apply list_elem_of_In. }
    split_and!; [done| |].
    + eapply Forall_impl; [exact Hn|]. intros c Hc. by apply alnum_props.
    + intros d _. apply depth_after_neutral.
      eapply Forall_impl; [exact Hn|]. intros c Hc.
      destruct (alnum_props c Hc) as (_ & ? & ? & ? & _). done.
  - assert (Forall (λ m, show m ≠ []
              ∧ Forall (λ c, isspace c = false) (show m)
              ∧ (∀ d, (0 ≤ d)%Z → depth_after d (show m) = Some d)) ms) as Hms.
    { rewrite forallb_forall in Hwf. rewrite Forall_forall in IH |- *.
      intros m Hm. apply IH; [done|]. apply Hwf. by apply list_elem_of_In. }
    clear IH Hwf. split_and!; [done| |].
    + apply Forall_cons. split; [done|]. apply Forall_app. split; [|by repeat constructor].
      apply join_Forall; [by repeat constructor|].
      apply Forall_fmap. eapply Forall_impl; [exact Hms|]. simpl. tauto.
    + intros d Hd. change (lit "(" ++ ?r) with ("("%char :: r). cbn [depth_after].
      change (depth_step d "(") with (d + 1)%Z.
      rewrite (depth_after_app _ (d + 1)).
      * simpl. unfold depth_step; simpl. f_equal. lia.
      * apply depth_after_join; [lia|].
        apply Forall_fmap. eapply Forall_impl; [exact Hms|]. simpl.
        intros m (_ & _ & Hm). apply Hm. lia.
  - destruct (IH Hwf) as (Hne & Hsp & Hd).
    set (suffix := match k with
                   | None => lit "[]"
                   | Some k => lit "[" ++ decimal k ++ lit "]"
                   end).
    assert (Forall (λ c, isspace c = false ∧ neutral c) suffix) as Hsuf.
    { destruct k as [k|]; subst suffix; [|by repeat constructor].
      apply Forall_app; split; [by repeat constructor|].
      apply Forall_app; split; [|by repeat constructor].
      eapply Forall_impl; [apply decimal_alnum|]. intros c Hc.
      destruct (alnum_props c Hc) as (? & ? & ? & ? & _). by repeat split. }
    assert (show (Array e k) = show e ++ suffix) as Hshow by by destruct k.
    simpl in Hshow. rewrite Hshow. split_and!.
    + by destruct (show e).
    + apply Forall_app. split; [done|].
      eapply Forall_impl; [exact Hsuf|]. simpl. tauto.
    + intros d Hd0. rewrite (depth_after_app d d) by by apply Hd.
      apply depth_after_neutral. eapply Forall_impl; [exact Hsuf|]. simpl. tauto.
Qed.

Lemma show_splittable (ms : list ty) :
  forallb well_formed ms = true → Forall splittable (show <$> ms).
Proof.
  intros Hwf. apply Forall_fmap, Forall_forall. intros m Hm.
  rewrite forallb_forall in Hwf.
  destruct (show_wf m) as (Hne & Hsp & Hd); [apply Hwf; by apply list_elem_of_In|].
  split_and!; [done|by apply strip_no_space|by apply Hd].
Qed.

(** How the post-processor classifies a printed well-formed type. *)
Lemma show_classified (t : ty) :
  well_formed t = true →
  remove_char " "%char (show t) = show t
  ∧ match t with
    | Elementary _ => is_elementary (show t) = true
    | Tuple ms =>
      is_tuple (show t) = true ∧ tuple_members (show t) = show <$> ms
    | Array e _ => is_array (show t) = true ∧ array_base (show t) = show e
    end.
Proof.
  intros Hwf. destruct (show_wf t Hwf) as (Hne & Hsp & Hd).
  pose proof (remove_space_id _ Hsp) as Hid. split; [done|].
  unfold is_elementary, is_tuple, is_array. rewrite Hid.
  destruct t as [n|ms|e k]; cbn [show well_formed] in *.
  - apply andb_true_iff in Hwf as [_ Hal].
    destruct n as [|c n _] using rev_ind; [done|].
    rewrite forallb_app in Hal. apply andb_true_iff in Hal as [_ Hc].
    simpl in Hc. rewrite andb_true_r in Hc.
    destruct (alnum_props c Hc) as (_ & _ & ? & _ & _ & ?).
    change (lit "]") with ["]"%char]. change (lit ")") with [")"%char].
    rewrite !endswith_snoc, !bool_decide_false by done.
    by rewrite andb_false_r.
  - set (J := join (lit ",") (show <$> ms)).
    change (lit "(" ++ J ++ lit ")") with ("("%char :: J ++ [")"%char]).
    change (lit "]") with ["]"%char]. change (lit ")") with [")"%char].
    rewrite (app_comm_cons J), !endswith_snoc. split; [done|].
    unfold tuple_members. rewrite <- app_comm_cons, slice_inner.
    apply split_join. by apply show_splittable.
  - destruct k as [k|].
    + destruct (array_suffix (show e) (decimal k)) as [He Hb]; [|by rewrite He, Hb].
      intros Hin. pose proof (decimal_alnum k) as Hk.
      rewrite Forall_forall in Hk.
      destruct (alnum_props _ (Hk _ Hin)) as (_ & _ & _ & _ & ? & _). done.
    + destruct (array_suffix (show e) []) as [He Hb]; [by apply not_elem_of_nil|].
      change (show e ++ lit "[]") with (show e ++ lit "[" ++ [] ++ lit "]").
      by rewrite He, Hb.
Qed.

End WellFormed.

(** C5: for every list of type strings (the printed forms of well-formed
    type trees: elementary names, tuples, arrays, nested at will), no
    element contains a comma at depth 0, each is balanced, and splitting the
    comma-join of the list gives the list back exactly. *)
Theorem split_join_roundtrip (ts : list ty) :
  forallb well_formed ts = true →
  Forall (λ x, depth_after 0 x = Some 0%Z) (show <$> ts)
  ∧ _split_top_level_args (join (lit ",") (show <$> ts)) = show <$> ts.
Proof.
  intros Hwf. pose proof (show_splittable ts Hwf) as Hs. split.
  - eapply Forall_impl; [exact Hs|]. by intros x (_ & _ & Hx).
  - by apply split_join.
Qed.

(** The argument types of the Uniswap v4 swap of the selector table, and an
    array of tuples. *)
Lemma split_join_roundtrip_witness :
  let ts := [Tuple [Elementary (lit "address"); Elementary (lit "address");
                    Elementary (lit "uint24"); Elementary (lit "int24");
                    Elementary (lit "address")];
             Tuple [Elementary (lit "bool"); Elementary (lit "int256");
                    Elementary (lit "uint160")];
             Elementary (lit "bytes");
             Array (Tuple [Elementary (lit "bytes");
                           Elementary (lit "bytes")]) None;
             Array (Elementary (lit "uint256")) (Some 3)] in
  join (lit ",") (show <$> ts)
  = lit "(address,address,uint24,int24,address),(bool,int256,uint160),bytes,(bytes,bytes)[],uint256[3]"
  ∧ _split_top_level_args (join (lit ",") (show <$> ts)) = show <$> ts.
Proof.
  intros ts. split; [reflexivity|].
  exact (proj2 (split_join_roundtrip ts eq_refl)).
Defined.

Section Termination.

Variable to_checksum_address : value → result value.

Local Abbreviation body := (postprocess_body to_checksum_address).
Local Abbreviation run_fuel := (postprocess_fuel to_checksum_address).
Local Abbreviation pv := (_postprocess_value to_checksum_address).

(** On a printed well-formed type, a call depth of one more than the
    nesting of the type is enough. *)
Lemma fuel_nesting (t : ty) :
  well_formed t = true →
  ∀ n v, nesting t < n → run_fuel n (show t) v = Some (pv (show t) v).
Proof.
  induction t as [nm|ms IH|e k IH] using ty_nested_ind; intros Hwf n v Hn;
    (destruct n as [|n]; [lia|]);
    destruct (show_classified _ Hwf) as [Hid Hcl];
    cbn [postprocess_fuel]; rewrite <- postprocess_unfold;
    apply body_ext; rewrite Hid.
  - unfold is_elementary in Hcl. apply andb_true_iff in Hcl as [Ha _].
    apply negb_true_iff in Ha. congruence.
  - unfold is_elementary in Hcl. apply andb_true_iff in Hcl as [_ Ht].
    apply negb_true_iff in Ht. congruence.
  - destruct Hcl as [Ht _]. unfold is_tuple, is_array in *.
    apply andb_true_iff in Ht as [Ha _]. apply negb_true_iff in Ha.
    rewrite Hid in Ha. congruence.
  - intros _. destruct Hcl as [_ ->]. apply Forall_fmap.
    cbn [well_formed] in Hwf. rewrite forallb_forall in Hwf.
    rewrite Forall_forall in IH |- *. intros m Hm x. simpl.
    apply IH; [done|apply Hwf; by apply list_elem_of_In|].
    cbn [nesting] in Hn.
    assert (nesting m ≤ max_list (nesting <$> ms)); [|lia].
    apply max_list_elem_of_le, list_elem_of_fmap. eauto.
  - intros _ x. destruct Hcl as [_ ->]. apply IH; [done|].
    cbn [nesting] in Hn. lia.
  - intros Ht. destruct Hcl as [Ha _]. unfold is_tuple, is_array in *.
    rewrite Ha in Ht. done.
Qed.

(** C9: the recursion of the post-processor terminates.  Every recursive
    call is on a strictly shorter type string (the array base, or a tuple
    member), the body depends on the recursive calls on shorter strings
    only, so any call depth above the length of the type string gives the
    result; and for a well-formed type string the call depth is bounded
    by the nesting depth of the type, whatever the value. *)
Theorem postprocess_terminates :
  (∀ sol_type : str,
     let t := remove_char " "%char sol_type in
     (is_array sol_type = true → length (array_base t) < length sol_type)
     ∧ (is_tuple sol_type = true →
        Forall (λ m, length m < length sol_type) (tuple_members t)))
  ∧ (∀ rec rec' (sol_type : str) (v : value),
       (∀ t' x, length t' < length sol_type → rec t' x = rec' t' x) →
       body rec sol_type v = body rec' sol_type v)
  ∧ (∀ (n : nat) (sol_type : str) (v : value),
       length sol_type < n →
       run_fuel n sol_type v = Some (pv sol_type v))
  ∧ (∀ (t : ty) (v : value) (n : nat),
       well_formed t = true → nesting t < n →
       run_fuel n (show t) v = Some (pv (show t) v)).
Proof.
  split_and!.
  - apply callee_shorter.
  - apply body_ext_shorter.
  - apply postprocess_fuel_enough.
  - intros t v n Hwf Hn. by apply fuel_nesting.
Qed.

End Termination.

(** A type of nesting 3: a call depth of 4 gives the result, 3 does not. *)
Lemma postprocess_terminates_witness :
  let t := Tuple [Elementary (lit "address");
                  Array (Tuple [Elementary (lit "bool");
                                Elementary (lit "bytes4")]) (Some 2)] in
  let v := VTuple [VStr (lit "0xab");
                   VTuple [VTuple [VBool true; VBytes ["a"%byte]];
                           VTuple [VBool false; VBytes []]]] in
  show t = lit "(address,(bool,bytes4)[2])"
  ∧ nesting t = 3
  ∧ postprocess_fuel checksum_stub 4 (show t) v
    = Some (_postprocess_value checksum_stub (show t) v)
  ∧ postprocess_fuel checksum_stub 3 (show t) v = None.
Proof.
  intros t v. split_and!; [reflexivity|reflexivity| |vm_compute; reflexivity].
  apply (proj2 (proj2 (proj2 (postprocess_terminates checksum_stub))) t v 4);
    [reflexivity|vm_compute; lia].
Defined.

(** ** The decode orchestrator *)

Lemma key_ok_inv (k : str) :
  key_ok k = true →
  ∃ s8, k = lit "0x" ++ s8 ∧ length s8 = 8
        ∧ Forall (λ ch, is_lower_hex ch = true) s8.
Proof.
  unfold key_ok. intros [[Hp Hl]%andb_true_iff Hh]%andb_true_iff.
  apply bool_decide_eq_true in Hl.
  destruct k as [|c0 [|c1 s8]]; [done..|]. cbn in Hp.
  apply andb_true_iff in Hp as [H0 H1]. rewrite andb_true_r in H1.
  apply bool_decide_eq_true in H0, H1. subst c0 c1.
  exists s8. split_and!; [done|simpl in Hl; lia|].
  cbn [drop] in Hh. apply Forall_forall. intros ch Hch.
  rewrite forallb_forall in Hh. apply Hh. by apply list_elem_of_In.
Qed.

Section Orchestrator.

Variable to_checksum_address : value → result value.
Variable abi_decode : list str → list byte → result (list value).

Local Abbreviation parse :=
  (parse_tx_input to_checksum_address abi_decode).

Lemma fromhex_no_space_bounded (n : nat) (s : str) :
  length s ≤ n → Forall (λ c, is_c_space c = false) s →
  (∃ b, bytes_fromhex s = Ok b) ↔ valid_even_hex s = true.
Proof.
  revert s. induction n as [|n IH]; intros s Hn Hs.
  - destruct s; [|simpl in Hn; lia]. split; [done|by eexists].
  - destruct Hs as [|c s Hc Hs]; [split; [done|by eexists]|].
    destruct Hs as [|c2 s Hc2 Hs].
    + simpl. rewrite Hc. split; [by intros [b ?]|done].
    + cbn [bytes_fromhex]. rewrite Hc.
      unfold valid_even_hex, is_hex_char in *. cbn [length Nat.even forallb].
      specialize (IH s ltac:(simpl in Hn; lia) Hs).
      destruct (hex_value c), (hex_value c2); simpl;
        rewrite ?andb_false_r;
        try (split; [by intros [b ?]|done]).
      rewrite <- IH. destruct (bytes_fromhex s); simpl; split;
        intros [b ?]; by eauto.
Qed.

(** Without whitespace, [bytes.fromhex] accepts exactly the even-length
    strings of hexadecimal digits. *)
Lemma fromhex_no_space (s : str) :
  Forall (λ c, is_c_space c = false) s →
  (∃ b, bytes_fromhex s = Ok b) ↔ valid_even_hex s = true.
Proof. by apply (fromhex_no_space_bounded (length s)). Qed.

Lemma parse_steps (calldata_hex : str) (selectors : gmap str (gmap str str)) :
  let c := strip_0x calldata_hex in
  let sel := lit "0x" ++ slice_to c 8 in
  (8 ≤ len c)%Z →
  parse calldata_hex selectors
  = (try body_bytes <- bytes_fromhex (slice_from c 8) in
     match selectors !! sel with
     | None => Ok (unknown_record sel)
     | Some entry =>
       if decide (entry = ∅) then Ok (unknown_record sel)
       else
         try sig <- entry_get entry (lit "signature") in
         try nm <- entry_get entry (lit "name") in
         try tys <- _extract_types_from_signature sig in
         if decide (tys = []) then Ok (known_record sel nm sig [] [])
         else
           try decoded <- abi_decode tys body_bytes in
           try pretty <-
             rmap (λ tv, _postprocess_value to_checksum_address tv.1 tv.2)
                  (zip tys decoded) in
           Ok (known_record sel nm sig tys pretty)
     end).
Proof.
  intros c sel Hlen. unfold parse_tx_input. fold (strip_0x calldata_hex).
  fold c. by rewrite decide_False by lia.
Qed.

Lemma parse_Ok_inv (calldata_hex : str) (selectors : gmap str (gmap str str))
    (rec : call_record) :
  let c := strip_0x calldata_hex in
  let sel := lit "0x" ++ slice_to c 8 in
  parse calldata_hex selectors = Ok rec →
  (8 ≤ len c)%Z
  ∧ (∃ b, bytes_fromhex (slice_from c 8) = Ok b)
  ∧ selector rec = sel
  ∧ (known rec = true ↔ ∃ entry, selectors !! sel = Some entry ∧ entry ≠ ∅).
Proof.
  intros c sel Hp.
  assert (8 ≤ len c)%Z as Hlen.
  { unfold parse_tx_input in Hp. fold (strip_0x calldata_hex) in Hp.
    fold c in Hp. by case_decide; [|lia]. }
  rewrite parse_steps in Hp by done. fold c sel in Hp.
  split; [done|].
  destruct (bytes_fromhex (slice_from c 8)) as [b|e]; [|done].
  split; [by eexists|]. cbn [rbind] in Hp.
  destruct (selectors !! sel) as [entry|] eqn:Hsel.
  - case_decide as Hentry.
    + injection Hp as <-. split; [done|]. split; [done|].
      intros (entry' & [= <-] & Hne). done.
    + assert (selector rec = sel ∧ known rec = true) as [Hs Hk].
      { destruct (entry_get entry (lit "signature")) as [sig|];
          cbn [rbind] in Hp; [|done].
        destruct (entry_get entry (lit "name")) as [nm|];
          cbn [rbind] in Hp; [|done].
        destruct (_extract_types_from_signature sig) as [tys|];
          cbn [rbind] in Hp; [|done].
        case_decide; [by injection Hp as <-|].
        destruct (abi_decode tys b) as [decoded|]; cbn [rbind] in Hp; [|done].
        destruct (rmap _ _); cbn [rbind] in Hp; [|done].
        by injection Hp as <-. }
      split; [done|]. split; [eauto|done].
  - injection Hp as <-. split; [done|]. split; [done|].
    by intros (entry' & [=] & _).
Qed.

Lemma parse_lookup_only (calldata_hex : str)
    (selectors selectors' : gmap str (gmap str str)) :
  selectors' !! (lit "0x" ++ slice_to (strip_0x calldata_hex) 8)
  = selectors !! (lit "0x" ++ slice_to (strip_0x calldata_hex) 8) →
  parse calldata_hex selectors' = parse calldata_hex selectors.
Proof.
  intros H.
  destruct (decide (len (strip_0x calldata_hex) < 8)%Z) as [Hs|Hs].
  - unfold parse_tx_input. fold (strip_0x calldata_hex).
    by rewrite !decide_True by done.
  - rewrite !parse_steps by lia. cbv zeta. by rewrite H.
Qed.

Lemma parse_miss (calldata_hex : str) (selectors : gmap str (gmap str str))
    (rec : call_record) :
  let sel := lit "0x" ++ slice_to (strip_0x calldata_hex) 8 in
  selectors !! sel = None →
  parse calldata_hex selectors = Ok rec → rec = unknown_record sel.
Proof.
  intros sel Hsel Hp.
  destruct (parse_Ok_inv _ _ _ Hp) as (Hlen & [b Hb] & _ & _).
  rewrite parse_steps in Hp by done. cbv zeta in Hp. fold sel in Hp.
  rewrite Hb, Hsel in Hp. cbn [rbind] in Hp. by injection Hp as <-.
Qed.

(** C2 (amended): the selector used for the registry lookup and placed in
    the result record is "0x" followed by the first eight characters of the
    call-data after the optional "0x" prefix, exactly as written: every
    returned record carries it, the outcome depends on the registry through
    the entry under that very key only, and nothing normalizes its case, so
    a selector with a character outside 0-9, a-f (an upper-case hex digit,
    say) does not hit a registry whose keys are written in lower case: the
    lookup misses, and a record that is returned is the unknown record. *)
Theorem parse_selector_verbatim (calldata_hex : str)
    (selectors : gmap str (gmap str str)) :
  let sel := lit "0x" ++ slice_to (strip_0x calldata_hex) 8 in
  (∀ rec, parse calldata_hex selectors = Ok rec → selector rec = sel)
  ∧ (∀ selectors' : gmap str (gmap str str),
       selectors' !! sel = selectors !! sel →
       parse calldata_hex selectors' = parse calldata_hex selectors)
  ∧ ((∀ k, is_Some (selectors !! k) → key_ok k = true) →
     (∃ ch, ch ∈ slice_to (strip_0x calldata_hex) 8 ∧ is_lower_hex ch = false) →
     selectors !! sel = None
     ∧ ∀ rec, parse calldata_hex selectors = Ok rec →
              rec = unknown_record sel).
Proof.
  intros sel. split_and!.
  - intros rec Hp. by destruct (parse_Ok_inv _ _ _ Hp) as (_ & _ & ? & _).
  - intros selectors' H. by apply parse_lookup_only.
  - intros Hkeys (ch & Hch & Hlow).
    assert (selectors !! sel = None) as Hnone.
    { destruct (selectors !! sel) as [entry|] eqn:Hsel; [|done].
      destruct (key_ok_inv sel) as (s8 & Hs8 & _ & Hhex);
        [apply Hkeys; by rewrite Hsel|].
      unfold sel in Hs8. injection Hs8 as Hs8.
      rewrite Hs8 in Hch. rewrite Forall_forall in Hhex.
      specialize (Hhex ch Hch). congruence. }
    split; [done|]. intros rec Hp. by eapply parse_miss.
Qed.

(** C3 (amended): when the call-data holds at least eight characters
    after the optional prefix, its body is accepted by the hex-to-bytes
    conversion and its selector is absent from the registry, the
    orchestrator returns the record with known = false and the error
    "Unknown function selector", and raises nothing. *)
Theorem parse_unknown_selector (calldata_hex : str)
    (selectors : gmap str (gmap str str)) :
  let c := strip_0x calldata_hex in
  let sel := lit "0x" ++ slice_to c 8 in
  (8 ≤ len c)%Z →
  (∃ b, bytes_fromhex (slice_from c 8) = Ok b) →
  selectors !! sel = None →
  ∃ rec, parse calldata_hex selectors = Ok rec
         ∧ selector rec = sel
         ∧ known rec = false
         ∧ error rec = Some (lit "Unknown function selector").
Proof.
  intros c sel Hlen [b Hb] Hsel. exists (unknown_record sel).
  rewrite parse_steps by done. fold c sel. by rewrite Hb, Hsel.
Qed.

(** C10 (amended): the body is converted from hex to bytes before the
    registry is consulted: whenever the conversion rejects the body, the
    orchestrator raises that error whatever the registry holds, and a
    record (known or not) is returned only for a body the conversion
    accepts.  The conversion skips ASCII whitespace between two-digit
    groups; on a body without such whitespace it accepts exactly the
    even-length strings of hexadecimal digits. *)
Theorem parse_body_converted_first (calldata_hex : str)
    (selectors : gmap str (gmap str str)) :
  let c := strip_0x calldata_hex in
  let body_hex := slice_from c 8 in
  (8 ≤ len c)%Z →
  (∀ e, bytes_fromhex body_hex = Raise e →
        parse calldata_hex selectors = Raise e)
  ∧ (∀ rec, parse calldata_hex selectors = Ok rec →
            ∃ b, bytes_fromhex body_hex = Ok b)
  ∧ (Forall (λ ch, is_c_space ch = false) body_hex →
     valid_even_hex body_hex = false →
     ∃ e, parse calldata_hex selectors = Raise e).
Proof.
  intros c body_hex Hlen. split_and!.
  - intros e He. rewrite parse_steps by done. fold c body_hex. by rewrite He.
  - intros rec Hp. by destruct (parse_Ok_inv _ _ _ Hp) as (_ & ? & _).
  - intros Hsp Hv. rewrite parse_steps by done. fold c body_hex.
    destruct (bytes_fromhex body_hex) as [b|e] eqn:Hb; [|by eexists].
    assert (valid_even_hex body_hex = true); [|congruence].
    apply fromhex_no_space; [done|by eexists].
Qed.

End Orchestrator.

(** C2 (as stated, refuted): a selector written with upper-case digits is
    kept as it is and misses the lower-case registry key. *)
Lemma parse_uppercase_selector_misses :
  parse_tx_input checksum_stub decode_stub (lit "0xA9059CBB") example_registry
  = Ok (unknown_record (lit "0xA9059CBB"))
  ∧ (example_registry !! lit "0xa9059cbb") ≫= (λ entry, entry !! lit "name")
    = Some (lit "transfer").
Proof. split; vm_compute; reflexivity. Qed.

(** The call transfer written with upper-case digits, against the three
    lower-case keys of [example_registry]. *)
Lemma parse_selector_verbatim_witness :
  let calldata := lit "0xA9059CBB00ff" in
  let sel := lit "0x" ++ slice_to (strip_0x calldata) 8 in
  sel = lit "0xA9059CBB"
  ∧ example_registry !! sel = None
  ∧ ∀ rec, parse_tx_input checksum_stub decode_stub calldata example_registry
           = Ok rec → rec = unknown_record sel.
Proof.
  intros calldata sel. split; [reflexivity|].
  refine (proj2 (proj2 (parse_selector_verbatim checksum_stub decode_stub
                          calldata example_registry)) _ _).
  - intros k [e Hk]. unfold example_registry in Hk.
    repeat (apply lookup_insert_Some in Hk as [[<- _]|[_ Hk]]; [reflexivity|]).
    by rewrite lookup_empty in Hk.
  - exists "A"%char. split; [|reflexivity]. vm_compute. left.
Defined.

(** C3 (as stated, refuted): nine hexadecimal characters and a selector
    absent from the registry, yet an exception is raised. *)
Lemma parse_unknown_selector_raises :
  parse_tx_input checksum_stub decode_stub (lit "0x123456789") ∅
  = Raise FromhexError.
Proof. by vm_compute. Qed.

(** A selector that is not in the table, with a two-byte body. *)
Lemma parse_unknown_selector_witness :
  ∃ rec, parse_tx_input checksum_stub decode_stub (lit "0xdeadbeef00ff")
           example_registry = Ok rec
         ∧ selector rec = lit "0xdeadbeef"
         ∧ known rec = false
         ∧ error rec = Some (lit "Unknown function selector").
Proof.
  apply (parse_unknown_selector checksum_stub decode_stub
           (lit "0xdeadbeef00ff") example_registry).
  - vm_compute. discriminate.
  - eexists. vm_compute. reflexivity.
  - vm_compute. reflexivity.
Defined.

(** C10 (as stated, refuted): the body "ab cd" is not an even-length
    string of hexadecimal digits, the selector is absent, and the
    orchestrator returns the unknown-selector record without raising. *)
Lemma parse_spaced_body_accepted :
  valid_even_hex (lit "ab cd") = false
  ∧ parse_tx_input checksum_stub decode_stub (lit "0x12345678ab cd") ∅
    = Ok (unknown_record (lit "0x12345678")).
Proof. split; by vm_compute. Qed.

Example parse_short_calldata :
  parse_tx_input checksum_stub decode_stub (lit "0x1234567") example_registry
  = Raise (ValueError (lit "Calldata too short to contain a selector.")).
Proof. vm_compute. reflexivity. Qed.

(** A known selector followed by a single hex digit. *)
Lemma parse_body_converted_first_witness :
  parse_tx_input checksum_stub decode_stub (lit "0xa9059cbb0") example_registry
  = Raise FromhexError.
Proof.
  refine (proj1 (parse_body_converted_first checksum_stub decode_stub
                   (lit "0xa9059cbb0") example_registry _) FromhexError _).
  - vm_compute. discriminate.
  - vm_compute. reflexivity.
Defined.

(** * Further properties *)

(** ** The splitter's output *)

Section SplitterOutput.

Lemma lstrip_first (s : str) :
  match lstrip s with [] => True | c :: _ => isspace c = false end.
Proof.
  induction s as [|x s IH]; simpl; [done|].
  destruct (isspace x) eqn:Hx; [done|]. simpl. done.
Qed.

Lemma lstrip_idemp (s : str) : lstrip (lstrip s) = lstrip s.
Proof.
  pose proof (lstrip_first s) as H. destruct (lstrip s) as [|c r]; [done|].
  simpl. by rewrite H.
Qed.

Lemma rstrip_idemp (s : str) : rstrip (rstrip s) = rstrip s.
Proof.
  rewrite (rstrip_rev (rstrip s)), (rstrip_rev s), rev_involutive.
  by rewrite lstrip_idemp.
Qed.

Lemma rstrip_keeps_head (c : ascii) (r : str) :
  isspace c = false → ∃ r', rstrip (c :: r) = c :: r'.
Proof.
  intros Hc. simpl. destruct (rstrip r); [rewrite Hc|]; eauto.
Qed.

Lemma strip_idemp (s : str) : strip (strip s) = strip s.
Proof.
  unfold strip. pose proof (lstrip_first s) as H.
  destruct (lstrip s) as [|c r] eqn:E; [done|].
  destruct (rstrip_keeps_head c r H) as [r' Hr]. rewrite Hr.
  cbn [lstrip]. rewrite H, <- Hr. apply rstrip_idemp.
Qed.

(** Every string is whitespace, its trimmed core, whitespace. *)
Lemma strip_split (s : str) :
  ∃ w1 w2, blank w1 ∧ blank w2 ∧ s = w1 ++ strip s ++ w2.
Proof.
  destruct (lstrip_split s) as (w1 & Hw1 & Hs).
  destruct (rstrip_split (lstrip s)) as (w2 & Hw2 & Hl).
  exists w1, w2. split_and!; [done..|]. unfold strip. by rewrite <- Hl.
Qed.

Lemma depth_after_strip (d : Z) (s : str) :
  depth_after d (strip s) = depth_after d s.
Proof.
  destruct (strip_split s) as (w1 & w2 & Hw1 & Hw2 & Hs).
  rewrite Hs at 2.
  rewrite (depth_after_app d d) by by apply depth_after_blank.
  destruct (depth_after d (strip s)) as [d'|] eqn:E.
  - rewrite (depth_after_app d d') by done. by rewrite depth_after_blank.
  - clear Hs. revert d E. induction (strip s) as [|c y IH]; intros d; simpl; [done|].
    case_decide; [done|]. apply IH.
Qed.

Lemma chunks_chain (d : Z) (s : str) : chain d (chunks d s).
Proof.
  revert d. induction s as [|ch rest IH]; intros d; simpl; [eauto|].
  case_decide as Hc.
  - destruct Hc as [_ ->]. specialize (IH 0%Z).
    destruct (chunks 0 rest) as [|c cs] eqn:E; [by destruct (chunks_ne 0 rest)|].
    split; [done|exact IH].
  - specialize (IH (depth_step d ch)).
    destruct (chunks (depth_step d ch) rest) as [|c cs] eqn:E;
      [by destruct (chunks_ne (depth_step d ch) rest)|].
    cbn [graft app chain] in *. destruct cs as [|c' cs].
    + simpl. by rewrite decide_False.
    + destruct IH as [Hc' Hcs]. split; [|done].
      simpl. by rewrite decide_False.
Qed.

Lemma chain_head (d : Z) (x : str) (l : list str) :
  chain d (x :: l) → is_Some (depth_after d x).
Proof. destruct l; simpl; [done|]. intros [-> _]. eauto. Qed.

Lemma chain_joinable (l : list str) :
  chain 0 l → joinable (filter (λ p, p ≠ []) (strip <$> l)).
Proof.
  induction l as [|x l IH]; [done|]. intros Hc.
  assert (chain 0 l) as Hl by (destruct l; [done|by destruct Hc]).
  specialize (IH Hl). rewrite fmap_cons.
  destruct (decide (strip x = [])) as [Hx|Hx].
  - by rewrite filter_cons_False by (by intros ?).
  - rewrite filter_cons_True by done.
    destruct (filter _ (strip <$> l)) as [|y J] eqn:E.
    + cbn. split_and!; [done|apply strip_idemp|].
      rewrite depth_after_strip. by eapply chain_head.
    + cbn [joinable]. split; [|exact IH].
      split_and!; [done|apply strip_idemp|]. rewrite depth_after_strip.
      destruct l as [|x' l]; [done|]. by destruct Hc.
Qed.

Lemma split_joinable (s : str) : joinable (_split_top_level_args s).
Proof. rewrite split_is_spec. apply chain_joinable, chunks_chain. Qed.

Lemma joinable_pieces (l : list str) : joinable l → Forall piece l.
Proof.
  induction l as [|x l IH]; [constructor|]. cbn [joinable].
  destruct l as [|y l].
  - intros Hx. apply List.Forall_cons; [done|apply List.Forall_nil].
  - intros [(Hne & Hs & Hd) Hl]. constructor; [|by apply IH].
    split_and!; [done..|]. rewrite Hd. eauto.
Qed.

Lemma chunks_piece (x : str) : is_Some (depth_after 0 x) → chunks 0 x = [x].
Proof.
  intros [d Hd]. rewrite <- (app_nil_r x) at 1.
  rewrite (chunks_depth_after 0 d) by done. simpl. by rewrite app_nil_r.
Qed.

Lemma chunks_join_joinable (l : list str) :
  l ≠ [] → joinable l → chunks 0 (join (lit ",") l) = l.
Proof.
  induction l as [|x l IH]; [done|]. intros _ Hj. cbn [joinable] in Hj.
  destruct l as [|y l].
  - destruct Hj as (_ & _ & Hd). by apply chunks_piece.
  - destruct Hj as [(_ & _ & Hx) Hl]. rewrite join_cons by done.
    rewrite (chunks_depth_after 0 0) by done.
    change (lit "," ++ ?r) with (","%char :: r).
    cbn [chunks]. rewrite decide_True by done.
    rewrite IH by done. simpl. by rewrite app_nil_r.
Qed.

Lemma split_join_joinable (l : list str) :
  joinable l → _split_top_level_args (join (lit ",") l) = l.
Proof.
  intros Hj. destruct (decide (l = [])) as [->|Hne]; [done|].
  rewrite split_is_spec. unfold split_spec. rewrite chunks_join_joinable by done.
  apply joinable_pieces in Hj. clear Hne.
  induction Hj as [|x l (Hx & Hs & _) Hl IH]; [done|].
  rewrite fmap_cons, Hs, filter_cons_True by done. by rewrite IH.
Qed.

End SplitterOutput.

(** X1: every piece the splitter returns is non-empty, carries no leading
    or trailing whitespace, and holds no comma at depth 0; every piece but
    the last is also parenthesis-balanced (scanned from depth 0 it ends at
    depth 0). *)
Theorem split_output_pieces (s : str) :
  Forall piece (_split_top_level_args s)
  ∧ joinable (_split_top_level_args s).
Proof.
  split; [apply joinable_pieces|]; apply split_joinable.
Qed.

(** X2: the splitter's output is a fixed point of join-then-split: joining
    the pieces with commas and splitting again returns the same pieces,
    whatever the input was (balanced or not). *)
Theorem split_join_split (s : str) :
  _split_top_level_args (join (lit ",") (_split_top_level_args s))
  = _split_top_level_args s.
Proof. apply split_join_joinable, split_joinable. Qed.

Section SplitterEdges.

Lemma chunks_negative (d : Z) (s : str) :
  (d < 0)%Z → "("%char ∉ s → chunks d s = [s].
Proof.
  revert d. induction s as [|ch rest IH]; intros d Hd Hs; simpl; [done|].
  apply not_elem_of_cons in Hs as [Hch Hrest].
  rewrite decide_False by (intros [_ ?]; lia).
  rewrite IH; [done| |done].
  unfold depth_step. rewrite decide_False by done. case_decide; lia.
Qed.

Lemma strip_nil_blank (s : str) : strip s = [] → blank s.
Proof.
  intros Hs. destruct (strip_split s) as (w1 & w2 & Hw1 & Hw2 & ->).
  rewrite Hs. simpl. by apply Forall_app.
Qed.

Lemma strip_sub (s : str) (c : ascii) : c ∈ strip s → c ∈ s.
Proof.
  intros Hc. destruct (strip_split s) as (w1 & w2 & _ & _ & Hs).
  rewrite Hs. rewrite !elem_of_app. auto.
Qed.

Lemma chunks_flat (s : str) :
  "("%char ∉ s → ")"%char ∉ s → Forall (λ c, ","%char ∉ c) (chunks 0 s).
Proof.
  induction s as [|ch rest IH]; intros Hl Hr; simpl.
  - repeat constructor. apply not_elem_of_nil.
  - apply not_elem_of_cons in Hl as [Hl Hl'].
    apply not_elem_of_cons in Hr as [Hr Hr'].
    specialize (IH Hl' Hr'). case_decide as Hc.
    + constructor; [apply not_elem_of_nil|done].
    + unfold depth_step. rewrite !decide_False by done.
      destruct (chunks 0 rest) as [|c cs]; simpl.
      * apply List.Forall_cons; [|apply List.Forall_nil].
        intros [E|H]%elem_of_cons; [by destruct Hc|].
        by apply not_elem_of_nil in H.
      * apply Forall_cons in IH as [Hc' Hcs]. constructor; [|done].
        intros [E|H]%elem_of_cons; [by destruct Hc|done].
Qed.

End SplitterEdges.

(** X3: parentheses are counted, never checked: after a balanced prefix
    without top-level comma, a stray ')' drives the depth below zero, and
    as long as no '(' follows nothing is cut any more: the whole input comes
    back as one trimmed piece, commas included. *)
Theorem split_stray_close (pre rest : str) :
  depth_after 0 pre = Some 0%Z → "("%char ∉ rest →
  _split_top_level_args (pre ++ ")"%char :: rest)
  = [strip (pre ++ ")"%char :: rest)].
Proof.
  intros Hpre Hrest. rewrite split_is_spec. unfold split_spec.
  rewrite (chunks_depth_after 0 0) by done. cbn [chunks].
  rewrite decide_False by (by intros [? _]).
  change (depth_step 0 ")") with (-1)%Z.
  rewrite chunks_negative by (lia || done). cbn [graft fmap list_fmap].
  rewrite filter_cons_True; [done|].
  intros Hs%strip_nil_blank. rewrite Forall_forall in Hs.
  assert (")"%char ∈ pre ++ ")"%char :: rest) as Hin
    by (apply elem_of_app; right; left).
  specialize (Hs _ Hin). vm_compute in Hs. discriminate Hs.
Qed.

(** "a),b,c" is returned whole. *)
Lemma split_stray_close_witness :
  _split_top_level_args (lit "a" ++ ")"%char :: lit ",b,c") = [lit "a),b,c"].
Proof.
  rewrite (split_stray_close (lit "a") (lit ",b,c")).
  - vm_compute. reflexivity.
  - vm_compute. reflexivity.
  - intros H. by repeat (apply elem_of_cons in H as [H|H]; [done|]);
      apply not_elem_of_nil in H.
Defined.

(** X4: on a flat type list, one without any parenthesis, every comma
    separates: no returned piece contains a comma. *)
Theorem split_flat_no_comma (s : str) :
  "("%char ∉ s → ")"%char ∉ s →
  Forall (λ p, ","%char ∉ p) (_split_top_level_args s).
Proof.
  intros Hl Hr. rewrite split_is_spec. unfold split_spec.
  apply Forall_forall. intros p [_ Hp]%list_elem_of_filter.
  apply list_elem_of_fmap in Hp as (c & -> & Hc).
  pose proof (chunks_flat s Hl Hr) as Hf. rewrite Forall_forall in Hf.
  intros Hin%strip_sub. by apply (Hf c Hc).
Qed.

Lemma split_flat_no_comma_witness :
  Forall (λ p, ","%char ∉ p)
    (_split_top_level_args (lit "address, uint256 ,bytes32[2]")).
Proof.
  apply split_flat_no_comma;
    intros H; repeat (apply elem_of_cons in H as [H|H]; [discriminate H|]);
    by apply not_elem_of_nil in H.
Defined.

(** X5: extraction undoes signature building: for a name without '(' and
    a list of type strings that are non-empty, trimmed and balanced without
    top-level comma, the extractor applied to name(t1,...,tn) returns
    exactly t1,...,tn. *)
Theorem extract_built_signature (name : str) (l : list str) :
  "("%char ∉ name → Forall splittable l →
  _extract_types_from_signature (name ++ lit "(" ++ join (lit ",") l ++ lit ")")
  = Ok l.
Proof.
  intros Hname Hl.
  change (name ++ lit "(" ++ join (lit ",") l ++ lit ")")
    with (name ++ "("%char :: join (lit ",") l ++ ")"%char :: []).
  rewrite extract_well_parenthesised by (done || apply not_elem_of_nil).
  f_equal. case_decide as Hj; [|by apply split_join].
  by rewrite <- (split_join l), Hj.
Qed.

Lemma extract_built_signature_witness :
  _extract_types_from_signature
    (lit "swap" ++ lit "("
     ++ join (lit ",") [lit "(address,uint24)"; lit "(bool,int256)[]"; lit "bytes"]
     ++ lit ")")
  = Ok [lit "(address,uint24)"; lit "(bool,int256)[]"; lit "bytes"].
Proof.
  apply extract_built_signature.
  - intros H. repeat (apply elem_of_cons in H as [H|H]; [discriminate H|]).
    by apply not_elem_of_nil in H.
  - repeat (apply List.Forall_cons;
            [split_and!; [done|vm_compute; reflexivity..]|]).
    apply List.Forall_nil.
Defined.

(** ** The post-processor: normal form, shapes and edges *)

Section PostProcessMore.

Variable to_checksum_address : value → result value.

Local Abbreviation body := (postprocess_body to_checksum_address).
Local Abbreviation pv := (_postprocess_value to_checksum_address).

Lemma remove_char_idemp (c : ascii) (s : str) :
  remove_char c (remove_char c s) = remove_char c s.
Proof.
  unfold remove_char. induction s as [|x s IH]; [done|].
  destruct (decide (x = c)) as [->|Hx].
  - by rewrite filter_cons_False by (by intros ?).
  - by rewrite !filter_cons_True, IH by done.
Qed.

Lemma postprocess_same_normal_form (t1 t2 : str) (v : value) :
  remove_char " "%char t1 = remove_char " "%char t2 → pv t1 v = pv t2 v.
Proof.
  intros Ht. assert (Some (pv t1 v) = Some (pv t2 v)) as H; [|congruence].
  rewrite <- !postprocess_unfold. unfold postprocess_body. by rewrite Ht.
Qed.

(** X6: spaces in a type string never matter: two type strings that are
    equal once their spaces are removed are rendered alike on every value;
    in particular a type string and its space-free form. *)
Theorem postprocess_spaces_ignored :
  (∀ (t1 t2 : str) (v : value),
     remove_char " "%char t1 = remove_char " "%char t2 → pv t1 v = pv t2 v)
  ∧ (∀ (t : str) (v : value), pv t v = pv (remove_char " "%char t) v).
Proof.
  split; [apply postprocess_same_normal_form|].
  intros t v. apply postprocess_same_normal_form. by rewrite remove_char_idemp.
Qed.

(** X7: the dimension written between the brackets of an array type is
    never looked at: two array types over the same base are rendered alike
    on every value, so a fixed length is not checked against the number of
    elements. *)
Theorem postprocess_dimension_ignored (t1 t2 base d1 d2 : str) (v : value) :
  remove_char " "%char t1 = base ++ lit "[" ++ d1 ++ lit "]" →
  remove_char " "%char t2 = base ++ lit "[" ++ d2 ++ lit "]" →
  "["%char ∉ d1 → "["%char ∉ d2 →
  pv t1 v = pv t2 v.
Proof.
  intros H1 H2 Hd1 Hd2.
  rewrite (postprocess_array_general _ t1 base d1) by done.
  by rewrite (postprocess_array_general _ t2 base d2).
Qed.

(** X9: edge behaviour of an array type: a value that is not a sequence
    (an integer, a boolean) raises TypeError; an empty sequence is rendered
    to the empty list without the element type being looked at; a byte
    string is walked byte by byte, each byte as an integer. *)
Theorem postprocess_array_edges (sol_type : str) :
  is_array sol_type = true →
  (∀ n, pv sol_type (VInt n) = Raise TypeError)
  ∧ (∀ b, pv sol_type (VBool b) = Raise TypeError)
  ∧ pv sol_type (VTuple []) = Ok (VList [])
  ∧ pv sol_type (VList []) = Ok (VList [])
  ∧ (∀ bs : list byte,
       pv sol_type (VBytes bs)
       = (try out <- rmap (pv (array_base (remove_char " "%char sol_type)))
                       ((λ x, VInt (Z.of_N (Byte.to_N x))) <$> bs) in
          Ok (VList out))).
Proof.
  intros Ha. split_and!; intros; by rewrite postprocess_array_eq.
Qed.

Lemma decimal_inj (i j : nat) : decimal i = decimal j → i = j.
Proof.
  unfold decimal, lit. intros H.
  apply (f_equal string_of_list_ascii) in H.
  rewrite !string_of_list_ascii_of_string in H.
  apply (f_equal NilEmpty.uint_of_string) in H. rewrite !NilEmpty.usu in H.
  injection H as H. by apply Unsigned.to_uint_inj.
Qed.

Lemma render_members_Ok (g : str → value → result value)
    (subtypes : list str) (i : nat) (items : list value)
    (es : list (str * value)) :
  render_members (λ t x, Some (g t x)) subtypes i (VTuple items) = Some (Ok es)
  ↔ Forall2 (λ (jm : nat * str) e,
               ∃ x y, items !! jm.1 = Some x ∧ g jm.2 x = Ok y
                      ∧ e = (lit "_" ++ decimal jm.1, y))
            (zip (seq i (length subtypes)) subtypes) es.
Proof.
  revert i es. induction subtypes as [|m ms IH]; intros i es; cbn.
  - split; [intros [= <-]; constructor|by inversion 1].
  - split.
    + destruct (items !! i) as [x|] eqn:Hx; cbn; [|done].
      destruct (g m x) as [y|e] eqn:Hy; cbn; [|done].
      destruct (render_members _ ms (S i) (VTuple items)) as [[ys|e]|] eqn:Hr;
        cbn; [|done..].
      intros [= <-]. constructor; [by exists x, y|]. by apply IH.
    + inversion 1 as [|? e ? es' (x & y & Hx & Hy & ->) Hrest]; subst.
      cbn in Hx, Hy. rewrite Hx. cbn. rewrite Hy. cbn.
      apply IH in Hrest. by rewrite Hrest.
Qed.

Lemma member_keys (g : str → value → result value) (items : list value)
    (ms : list str) (i : nat) (es : list (str * value)) :
  Forall2 (λ (jm : nat * str) e,
             ∃ x y, items !! jm.1 = Some x ∧ g jm.2 x = Ok y
                    ∧ e = (lit "_" ++ decimal jm.1, y))
          (zip (seq i (length ms)) ms) es →
  es.*1 = (λ j, lit "_" ++ decimal j) <$> seq i (length ms).
Proof.
  revert i es. induction ms as [|m ms IH]; intros i es; cbn.
  - by inversion 1.
  - inversion 1 as [|? e ? es' (x & y & _ & _ & ->) Hrest]; subst.
    cbn. f_equal. by apply IH.
Qed.

(** X8: rendering a tuple: the result on a decoded tuple is a mapping
    exactly when every member type finds its element and renders it; the
    mapping then has one entry per member type, in declaration order, the
    entry at position j being the key "_j" with the rendering of element j,
    and its keys are pairwise distinct. *)
Theorem postprocess_tuple_mapping (sol_type : str) (items : list value) :
  is_tuple sol_type = true →
  let subtypes := tuple_members (remove_char " "%char sol_type) in
  ∀ r, pv sol_type (VTuple items) = Ok r ↔
       ∃ es, r = VDict es
             ∧ Forall2 (λ (jm : nat * str) e,
                          ∃ x y, items !! jm.1 = Some x ∧ pv jm.2 x = Ok y
                                 ∧ e = (lit "_" ++ decimal jm.1, y))
                       (zip (seq 0 (length subtypes)) subtypes) es
             ∧ es.*1 = (λ j, lit "_" ++ decimal j) <$> seq 0 (length subtypes)
             ∧ NoDup es.*1.
Proof.
  intros Ht subtypes r.
  pose proof (postprocess_tuple_eq to_checksum_address sol_type (VTuple items) Ht)
    as Hu. fold subtypes in Hu.
  pose proof (member_keys (λ t x, pv t x) items subtypes 0) as Hkeys.
  split.
  - intros Hr. rewrite Hr in Hu.
    destruct (render_members _ subtypes 0 (VTuple items)) as [[es|e]|] eqn:Hm;
      cbn in Hu; [|done..].
    injection Hu as ->. exists es. apply render_members_Ok in Hm.
    split_and!; [done|done|by apply Hkeys|].
    rewrite (Hkeys es Hm). apply NoDup_fmap_2; [|apply NoDup_seq].
    intros i j [= H]. by apply decimal_inj.
  - intros (es & -> & Hes & _). apply render_members_Ok in Hes.
    rewrite Hes in Hu. cbn in Hu. congruence.
Qed.

End PostProcessMore.

(** "uint256[3]" on two elements is rendered like "uint256[]". *)
Lemma postprocess_dimension_ignored_witness :
  _postprocess_value checksum_stub (lit "uint256[3]") (VTuple [VInt 1; VInt 2])
  = _postprocess_value checksum_stub (lit "uint256[]") (VTuple [VInt 1; VInt 2])
  ∧ _postprocess_value checksum_stub (lit "uint256[3]") (VTuple [VInt 1; VInt 2])
    = Ok (VList [VInt 1; VInt 2]).
Proof.
  split; [|vm_compute; reflexivity].
  apply (postprocess_dimension_ignored checksum_stub _ _
           (lit "uint256") (lit "3") []); [reflexivity|reflexivity| |].
  - intros H. repeat (apply elem_of_cons in H as [H|H]; [discriminate H|]).
    by apply not_elem_of_nil in H.
  - apply not_elem_of_nil.
Defined.

Lemma postprocess_array_edges_witness :
  _postprocess_value checksum_stub (lit "address[]") (VInt 7) = Raise TypeError
  ∧ _postprocess_value checksum_stub (lit "address[]") (VTuple []) = Ok (VList []).
Proof.
  destruct (postprocess_array_edges checksum_stub (lit "address[]") eq_refl)
    as (H1 & _ & H2 & _).
  split; [apply H1|apply H2].
Defined.

Lemma postprocess_tuple_mapping_witness :
  _postprocess_value checksum_stub (lit "(bool, bytes2)")
    (VTuple [VBool true; VBytes ["a"%byte; "b"%byte]])
  = Ok (VDict [(lit "_0", VBool true); (lit "_1", VStr (lit "0x6162"))]).
Proof.
  apply (postprocess_tuple_mapping checksum_stub (lit "(bool, bytes2)")
           [VBool true; VBytes ["a"%byte; "b"%byte]] eq_refl).
  eexists. split; [reflexivity|]. split_and!.
  - repeat constructor.
    + exists (VBool true), (VBool true). by vm_compute.
    + exists (VBytes ["a"%byte; "b"%byte]), (VStr (lit "0x6162")). by vm_compute.
  - vm_compute. reflexivity.
  - vm_compute. repeat constructor; intros H;
      repeat (apply elem_of_cons in H as [H|H]; [discriminate H|]);
      by apply not_elem_of_nil in H.
Defined.

(** ** Hex text and bytes *)

Section Hex.

Lemma fromhex_hex_of_byte (x : byte) (rest : str) :
  bytes_fromhex (hex_of_byte x ++ rest)
  = (try bs <- bytes_fromhex rest in Ok (x :: bs)).
Proof. destruct x; reflexivity. Qed.

Lemma fromhex_bytes_hex (b : list byte) : bytes_fromhex (bytes_hex b) = Ok b.
Proof.
  induction b as [|x b IH]; [done|].
  rewrite bytes_hex_cons, fromhex_hex_of_byte, IH. done.
Qed.

Lemma strip_0x_prefixed (h : str) : strip_0x (lit "0x" ++ h) = h.
Proof.
  unfold strip_0x. change (startswith (lit "0x") (lit "0x" ++ h)) with true.
  cbv iota. unfold slice_from, clamp.
  destruct (Z.ltb_spec 2 0); [lia|].
  rewrite len_app. change (len (lit "0x")) with 2%Z. pose proof (len_nonneg h).
  by rewrite Z.min_l by lia.
Qed.

End Hex.

(** X10: hex text round trip: the hex text that the post-processor
    produces for a byte string is turned back into the same bytes by the
    conversion the orchestrator applies to call-data, with or without the
    "0x" prefix the post-processor puts in front. *)
Theorem hex_fromhex_roundtrip (b : list byte) :
  bytes_fromhex (bytes_hex b) = Ok b
  ∧ (∀ h, hex_string (VBytes b) = Ok (VStr h) →
          bytes_fromhex (strip_0x h) = Ok b).
Proof.
  split; [apply fromhex_bytes_hex|].
  intros h [= <-].
  change (bytes_fromhex (strip_0x (lit "0x" ++ bytes_hex b)) = Ok b).
  rewrite strip_0x_prefixed. apply fromhex_bytes_hex.
Qed.

(** ** Rendering along the type tree *)

Section Tree.

Variable to_checksum_address : value → result value.

Local Abbreviation pv := (_postprocess_value to_checksum_address).
Local Abbreviation tree := (render_tree to_checksum_address).

Lemma rmap_ext {A B} (f g : A → result B) (l : list A) :
  (∀ a, f a = g a) → rmap f l = rmap g l.
Proof. intros H. induction l as [|a l IH]; simpl; [done|]. by rewrite H, IH. Qed.

Lemma render_members_with (g : str → value → result value)
    (subtypes : list str) (i : nat) (v : value) :
  render_members (λ t x, Some (g t x)) subtypes i v
  = Some (members_with g subtypes i v).
Proof.
  revert i. induction subtypes as [|m ms IH]; intros i; cbn; [done|].
  destruct (py_getitem v i) as [x|e]; cbn; [|done].
  destruct (g m x) as [y|e]; cbn; [|done].
  rewrite IH. cbn. by destruct (members_with g ms (S i) v).
Qed.

Lemma members_with_show (ms : list ty) (i : nat) (v : value) :
  Forall (λ m, ∀ x, pv (show m) x = tree m x) ms →
  members_with pv (show <$> ms) i v = members_with tree ms i v.
Proof.
  intros Hms. revert i. induction Hms as [|m ms Hm _ IH]; intros i; cbn; [done|].
  destruct (py_getitem v i) as [x|e]; cbn; [|done].
  rewrite Hm. destruct (tree m x) as [y|e]; cbn; [|done].
  by rewrite IH.
Qed.

Lemma postprocess_tree (t : ty) :
  well_formed t = true → ∀ v, pv (show t) v = tree t v.
Proof.
  induction t as [n|ms IH|e k IH] using ty_nested_ind; intros Hwf v;
    destruct (show_classified _ Hwf) as [Hid Hcl].
  - rewrite postprocess_elementary_eq by done. cbv zeta. by rewrite Hid.
  - destruct Hcl as [Ht Hm].
    pose proof (postprocess_tuple_eq to_checksum_address _ v Ht) as Hu.
    rewrite Hid, Hm, render_members_with in Hu. cbn [fbind] in Hu.
    cbn [render_tree]. rewrite <- members_with_show.
    + destruct (members_with pv (show <$> ms) 0 v); cbn in *; congruence.
    + cbn [well_formed] in Hwf. rewrite forallb_forall in Hwf.
      rewrite Forall_forall in IH |- *. intros m Hm' x.
      apply IH; [done|]. apply Hwf. by apply list_elem_of_In.
  - destruct Hcl as [Ha Hb].
    rewrite postprocess_array_eq by done. rewrite Hid, Hb. cbn [render_tree].
    destruct (py_iter v) as [items|err]; cbn; [|done].
    rewrite (rmap_ext _ (tree e)); [done|]. intros x. by apply IH.
Qed.

End Tree.

(** X11: on the printed form of a well-formed type tree the post-processor,
    which re-reads the structure from the string at every level, computes
    exactly what a recursion over the tree computes: checksum, hex or
    identity at the leaves, elementwise lists for arrays, positional
    mappings for tuples; for every value, errors included. *)
Theorem postprocess_follows_tree
    (to_checksum_address : value → result value) (t : ty) (v : value) :
  well_formed t = true →
  _postprocess_value to_checksum_address (show t) v
  = render_tree to_checksum_address t v.
Proof. intros Hwf. by apply postprocess_tree. Qed.

Lemma postprocess_follows_tree_witness :
  let t := Array (Tuple [Elementary (lit "address");
                         Array (Elementary (lit "bytes4")) (Some 2)]) None in
  let v := VTuple [VTuple [VStr (lit "0xab"); VTuple [VBytes ["a"%byte]]];
                   VTuple [VStr (lit "0xcd")]] in
  show t = lit "(address,bytes4[2])[]"
  ∧ _postprocess_value checksum_stub (show t) v = render_tree checksum_stub t v
  ∧ render_tree checksum_stub t v = Raise IndexError.
Proof.
  intros t v. split_and!; [reflexivity| |vm_compute; reflexivity].
  apply postprocess_follows_tree. reflexivity.
Defined.

(** ** The orchestrator: known calls, entries, bounds *)

Section OrchestratorMore.

Variable to_checksum_address : value → result value.
Variable abi_decode : list str → list byte → result (list value).

Local Abbreviation parse := (parse_tx_input to_checksum_address abi_decode).
Local Abbreviation pv := (_postprocess_value to_checksum_address).

Lemma entry_get_Ok (entry : gmap str str) (key x : str) :
  entry_get entry key = Ok x ↔ entry !! key = Some x.
Proof. unfold entry_get. destruct (entry !! key); naive_solver. Qed.




(** The parts of a record returned with known = true. *)
Lemma parse_known_inv (calldata_hex : str)
    (selectors : gmap str (gmap str str)) (rec : call_record) :
  parse calldata_hex selectors = Ok rec → known rec = true →
  let c := strip_0x calldata_hex in
  let sel := lit "0x" ++ slice_to c 8 in
  ∃ entry sig nm tys args body,
    selectors !! sel = Some entry
    ∧ entry !! lit "signature" = Some sig
    ∧ entry !! lit "name" = Some nm
    ∧ bytes_fromhex (slice_from c 8) = Ok body
    ∧ _extract_types_from_signature sig = Ok tys
    ∧ rec = known_record sel nm sig tys args
    ∧ (tys = [] → args = [])
    ∧ (tys ≠ [] →
       ∃ decoded, abi_decode tys body = Ok decoded
                  ∧ Forall2 (λ (tv : str * value) a, pv tv.1 tv.2 = Ok a)
                            (zip tys decoded) args)
    ∧ length args ≤ length tys.
Proof.
  intros Hp Hk c sel.
  destruct (parse_Ok_inv _ _ _ _ _ Hp) as (Hlen & [body Hb] & _ & _).
  rewrite parse_steps in Hp by done. cbv zeta in Hp. fold c in Hp, Hb.
  fold sel in Hp. rewrite Hb in Hp. cbn [rbind] in Hp.
  destruct (selectors !! sel) as [entry|] eqn:Hsel;
    [|by injection Hp as <-].
  case_decide as Hentry; [by injection Hp as <-|].
  destruct (entry_get entry (lit "signature")) as [sig|] eqn:Hsig;
    cbn [rbind] in Hp; [|done].
  destruct (entry_get entry (lit "name")) as [nm|] eqn:Hnm;
    cbn [rbind] in Hp; [|done].
  destruct (_extract_types_from_signature sig) as [tys|] eqn:Hx;
    cbn [rbind] in Hp; [|done].
  apply entry_get_Ok in Hsig, Hnm.
  case_decide as Htys.
  - injection Hp as <-. subst tys.
    exists entry, sig, nm, [], [], body. split_and!; try done.
  - destruct (abi_decode tys body) as [decoded|] eqn:Hd; cbn [rbind] in Hp; [|done].
    destruct (rmap _ (zip tys decoded)) as [pretty|] eqn:Hr;
      cbn [rbind] in Hp; [|done].
    injection Hp as <-. apply rmap_Ok in Hr.
    exists entry, sig, nm, tys, pretty, body. split_and!; try done.
    + intros _. by exists decoded.
    + apply Forall2_length in Hr. rewrite <- Hr, length_zip_with. lia.
Qed.

(** X12: what a known record certifies.  When the orchestrator returns a
    record with known = true, the registry holds an entry under the record's
    selector whose name and signature are the record's, the record's
    argument types are the extractor's result on that signature, and either
    there are no argument types and no decoded arguments, or the decoder
    returned values and the decoded arguments are the renderings, in order,
    of the type/value pairs (pairs beyond the shorter of the two lists are
    dropped); so there are never more decoded arguments than types. *)
Theorem parse_known_record (calldata_hex : str)
    (selectors : gmap str (gmap str str)) (rec : call_record) :
  parse calldata_hex selectors = Ok rec → known rec = true →
  let c := strip_0x calldata_hex in
  let sel := lit "0x" ++ slice_to c 8 in
  ∃ entry sig nm tys args body,
    selectors !! sel = Some entry
    ∧ entry !! lit "signature" = Some sig
    ∧ entry !! lit "name" = Some nm
    ∧ bytes_fromhex (slice_from c 8) = Ok body
    ∧ _extract_types_from_signature sig = Ok tys
    ∧ rec = known_record sel nm sig tys args
    ∧ (tys = [] → args = [])
    ∧ (tys ≠ [] →
       ∃ decoded, abi_decode tys body = Ok decoded
                  ∧ Forall2 (λ (tv : str * value) a, pv tv.1 tv.2 = Ok a)
                            (zip tys decoded) args)
    ∧ length args ≤ length tys.
Proof. apply parse_known_inv. Qed.

(** X13: entries that are not a full record.  With call-data of at least
    eight characters and a convertible body: an empty entry counts as a
    miss (unknown record); a non-empty entry without 'signature' raises
    KeyError for 'signature'; an entry with a signature but no 'name' raises
    KeyError for 'name', whether or not the signature is well formed; an
    entry with both whose signature is malformed raises the extractor's
    ValueError. *)
Theorem parse_entry_edges (calldata_hex : str)
    (selectors : gmap str (gmap str str)) (entry : gmap str str) :
  let c := strip_0x calldata_hex in
  let sel := lit "0x" ++ slice_to c 8 in
  (8 ≤ len c)%Z →
  (∃ body, bytes_fromhex (slice_from c 8) = Ok body) →
  selectors !! sel = Some entry →
  (entry = ∅ → parse calldata_hex selectors = Ok (unknown_record sel))
  ∧ (entry ≠ ∅ → entry !! lit "signature" = None →
     parse calldata_hex selectors = Raise (KeyError (lit "signature")))
  ∧ (∀ sig, entry !! lit "signature" = Some sig → entry !! lit "name" = None →
            parse calldata_hex selectors = Raise (KeyError (lit "name")))
  ∧ (∀ sig nm, entry !! lit "signature" = Some sig →
               entry !! lit "name" = Some nm → malformed sig →
               parse calldata_hex selectors
               = Raise (ValueError (lit "Malformed signature: " ++ sig))).
Proof.
  intros c sel Hlen [body Hb] Hsel.
  rewrite parse_steps by done. fold c sel. rewrite Hb, Hsel. cbn [rbind].
  assert (∀ sig, entry !! lit "signature" = Some sig → entry ≠ ∅) as Hne.
  { intros sig Hs ->. by rewrite lookup_empty in Hs. }
  split_and!.
  - intros ->. by rewrite decide_True.
  - intros Hentry Hsig. rewrite decide_False by done.
    unfold entry_get. by rewrite Hsig.
  - intros sig Hsig Hnm. rewrite decide_False by by eapply Hne.
    unfold entry_get. by rewrite Hsig, Hnm.
  - intros sig nm Hsig Hnm Hm. rewrite decide_False by by eapply Hne.
    unfold entry_get. rewrite Hsig, Hnm. cbn [rbind].
    by rewrite (extract_malformed sig Hm).
Qed.

(** X14: too little call-data: when fewer than eight characters remain
    after an optional "0x" prefix (so fewer than ten with the prefix), the
    orchestrator raises its ValueError whatever the registry holds, before
    any conversion or lookup. *)
Theorem parse_too_short (calldata_hex : str)
    (selectors : gmap str (gmap str str)) :
  (if startswith (lit "0x") calldata_hex then (len calldata_hex < 10)%Z
   else (len calldata_hex < 8)%Z) →
  parse calldata_hex selectors
  = Raise (ValueError (lit "Calldata too short to contain a selector.")).
Proof.
  intros Hlen. unfold parse_tx_input.
  destruct (startswith (lit "0x") calldata_hex) eqn:Hp.
  - rewrite decide_True; [done|].
    unfold slice_from, clamp, len in *. rewrite length_drop.
    destruct (Z.ltb_spec 2 0); lia.
  - by rewrite decide_True.
Qed.

End OrchestratorMore.

Lemma parse_known_record_witness :
  ∃ entry sig nm tys args body,
    example_registry !! lit "0xd0c93a7c" = Some entry
    ∧ entry !! lit "signature" = Some sig
    ∧ entry !! lit "name" = Some nm
    ∧ bytes_fromhex (slice_from (strip_0x (lit "0xd0c93a7c00ff")) 8) = Ok body
    ∧ _extract_types_from_signature sig = Ok tys
    ∧ known_record (lit "0xd0c93a7c") (lit "tickSpacing") (lit "tickSpacing()")
        [] []
      = known_record (lit "0xd0c93a7c") nm sig tys args
    ∧ length args ≤ length tys.
Proof.
  destruct (parse_known_record checksum_stub decode_stub (lit "0xd0c93a7c00ff")
              example_registry
              (known_record (lit "0xd0c93a7c") (lit "tickSpacing")
                 (lit "tickSpacing()") [] []))
    as (entry & sig & nm & tys & args & body & H1 & H2 & H3 & H4 & H5 & H6 & _ & _ & H9);
    [vm_compute; reflexivity|reflexivity|].
  exists entry, sig, nm, tys, args, body. by split_and!.
Defined.

Lemma parse_entry_edges_witness :
  let registry : gmap str (gmap str str) :=
    <[lit "0x12345678" := <[lit "signature" := lit "f(uint256)"]> ∅]> ∅ in
  parse_tx_input checksum_stub decode_stub (lit "0x12345678") registry
  = Raise (KeyError (lit "name")).
Proof.
  intros registry.
  refine (proj1 (proj2 (proj2
            (parse_entry_edges checksum_stub decode_stub (lit "0x12345678")
               registry (<[lit "signature" := lit "f(uint256)"]> ∅) _ _ _)))
            (lit "f(uint256)") _ _).
  - vm_compute. discriminate.
  - eexists. vm_compute. reflexivity.
  - apply lookup_insert_eq.
  - apply lookup_insert_eq.
  - rewrite lookup_insert_ne by done. apply lookup_empty.
Defined.

Lemma parse_too_short_witness :
  parse_tx_input checksum_stub decode_stub (lit "0xa9059cb") example_registry
  = Raise (ValueError (lit "Calldata too short to contain a selector.")).
Proof. apply parse_too_short. vm_compute. reflexivity. Defined.

(** ** The selector table *)

Section Table.

Lemma fold_assign_lookup (items : list (string * (string * string)))
    (acc : gmap str (gmap str str)) (k : str) (e : gmap str str) :
  fold_left assign items acc !! k = Some e →
  acc !! k = Some e
  ∨ ∃ a, a ∈ items ∧ lit a.1 = k
         ∧ e = selector_entry (lit a.2.1) (lit a.2.2).
Proof.
  revert acc. induction items as [|a items IH]; intros acc; simpl; [by left|].
  intros [Hacc|(a' & Hin & Hk & He)]%IH.
  - unfold assign in Hacc. apply lookup_insert_Some in Hacc as [[Hk He]|[_ Hacc]].
    + right. exists a. split; [by left|done].
    + by left.
  - right. exists a'. split; [by right|done].
Qed.

Lemma assignments_ok :
  forallb assignment_ok f_selector_assignments = true.
Proof. vm_compute. reflexivity. Qed.

Lemma table_lookup (k : str) (e : gmap str str) :
  f_selector_dict !! k = Some e →
  ∃ a, a ∈ f_selector_assignments ∧ assignment_ok a = true
       ∧ lit a.1 = k ∧ e = selector_entry (lit a.2.1) (lit a.2.2).
Proof.
  intros [H|(a & Hin & Hk & He)]%fold_assign_lookup.
  - by rewrite lookup_empty in H.
  - exists a. split_and!; try done.
    pose proof assignments_ok as Hok. rewrite forallb_forall in Hok.
    apply Hok. by apply list_elem_of_In.
Qed.

Lemma selector_entry_lookups (nm sig : str) :
  selector_entry nm sig ≠ ∅
  ∧ selector_entry nm sig !! lit "signature" = Some sig
  ∧ selector_entry nm sig !! lit "name" = Some nm.
Proof.
  unfold selector_entry. split_and!.
  - apply insert_non_empty.
  - apply lookup_insert_eq.
  - rewrite lookup_insert_ne by done. apply lookup_insert_eq.
Qed.

Lemma assignment_ok_inv (a : string * (string * string)) :
  assignment_ok a = true →
  key_ok (lit a.1) = true
  ∧ ∃ tys, _extract_types_from_signature (lit a.2.2) = Ok tys
           ∧ lit a.2.2 = lit a.2.1 ++ lit "(" ++ join (lit ",") tys ++ lit ")".
Proof.
  unfold assignment_ok. intros [Hk Hx]%andb_true_iff. split; [done|].
  destruct (_extract_types_from_signature (lit a.2.2)) as [tys|]; [|done].
  exists tys. split; [done|]. by apply bool_decide_eq_true in Hx.
Qed.


End Table.

Section TableDecoding.

Variable to_checksum_address : value → result value.
Variable abi_decode : list str → list byte → result (list value).

Local Abbreviation parse := (parse_tx_input to_checksum_address abi_decode).
Local Abbreviation pv := (_postprocess_value to_checksum_address).


(** X16: the keys of the selector table are "0x" followed by eight of
    0-9, a-f, and selectors are compared as written; so call-data whose
    first eight characters contain anything else (an upper-case A-F, for
    one) is reported unknown against the table, provided it is long enough
    and its body converts. *)
Theorem parse_table_case_sensitive (calldata_hex : str) :
  let c := strip_0x calldata_hex in
  let sel := lit "0x" ++ slice_to c 8 in
  (8 ≤ len c)%Z →
  (∃ body, bytes_fromhex (slice_from c 8) = Ok body) →
  (∃ ch, ch ∈ slice_to c 8 ∧ is_lower_hex ch = false) →
  f_selector_dict !! sel = None
  ∧ parse calldata_hex f_selector_dict = Ok (unknown_record sel).
Proof.
  intros c sel Hlen [body Hb] (ch & Hch & Hlow).
  assert (f_selector_dict !! sel = None) as Hnone.
  { destruct (f_selector_dict !! sel) as [entry|] eqn:Hsel; [|done].
    apply table_lookup in Hsel as (a & _ & Hok & Hk & _).
    destruct (assignment_ok_inv a Hok) as (Hkey & _).
    destruct (key_ok_inv _ Hkey) as (s8 & Hs8 & _ & Hhex).
    rewrite Hk in Hs8. unfold sel in Hs8. injection Hs8 as Hs8.
    rewrite Hs8 in Hch. rewrite Forall_forall in Hhex.
    specialize (Hhex ch Hch). congruence. }
  split; [done|]. rewrite parse_steps by done. fold c sel.
  by rewrite Hb, Hnone.
Qed.

(** X17: a call reported known against the selector table carries a
    selector that the source assigns, with the name and signature assigned
    to it, and its argument types rebuild the signature: the signature is
    the name followed by the comma-join of the argument types in
    parentheses. *)
Theorem parse_table_known (calldata_hex : str) (rec : call_record) :
  parse calldata_hex f_selector_dict = Ok rec → known rec = true →
  ∃ a tys,
    a ∈ f_selector_assignments
    ∧ selector rec = lit a.1
    ∧ name rec = Some (lit a.2.1)
    ∧ signature rec = Some (lit a.2.2)
    ∧ arg_types rec = Some tys
    ∧ lit a.2.2 = lit a.2.1 ++ lit "(" ++ join (lit ",") tys ++ lit ")".
Proof.
  intros Hp Hk.
  destruct (parse_known_inv _ _ _ _ _ Hp Hk)
    as (entry & sig & nm & tys & args & body
        & Hsel & Hsig & Hnm & _ & Hx & -> & _).
  apply table_lookup in Hsel as (a & Hin & Hok & Hkey & ->).
  destruct (assignment_ok_inv a Hok) as (_ & tys' & Hx' & Hcanon).
  destruct (selector_entry_lookups (lit a.2.1) (lit a.2.2)) as (_ & Hsig' & Hnm').
  assert (sig = lit a.2.2) as -> by congruence.
  assert (nm = lit a.2.1) as -> by congruence.
  assert (tys' = tys) as -> by congruence.
  exists a, tys. by split_and!.
Qed.

End TableDecoding.


Lemma parse_table_case_sensitive_witness :
  f_selector_dict !! lit "0xA9059CBB" = None
  ∧ parse_tx_input checksum_stub decode_stub (lit "0xA9059CBB") f_selector_dict
    = Ok (unknown_record (lit "0xA9059CBB")).
Proof.
  apply (parse_table_case_sensitive checksum_stub decode_stub (lit "0xA9059CBB")).
  - vm_compute. discriminate.
  - eexists. vm_compute. reflexivity.
  - exists "A"%char. split; [|reflexivity]. vm_compute. left.
Defined.

Lemma parse_table_known_witness :
  ∃ a tys,
    a ∈ f_selector_assignments
    ∧ lit "0x9d63848a" = lit a.1
    ∧ Some (lit "tokens") = Some (lit a.2.1)
    ∧ Some (lit "tokens()") = Some (lit a.2.2)
    ∧ Some [] = Some tys
    ∧ lit a.2.2 = lit a.2.1 ++ lit "(" ++ join (lit ",") tys ++ lit ")".
Proof.
  apply (parse_table_known checksum_stub decode_stub (lit "0x9d63848a")
           (known_record (lit "0x9d63848a") (lit "tokens") (lit "tokens()")
              [] [])).
  - vm_compute. reflexivity.
  - reflexivity.
Defined.

Section TableLookup.

Lemma fold_assign_other (items : list (string * (string * string)))
    (acc : gmap str (gmap str str)) (k : str) :
  k ∉ (λ a, lit a.1) <$> items →
  fold_left assign items acc !! k = acc !! k.
Proof.
  revert acc. induction items as [|a items IH]; intros acc Hk; simpl; [done|].
  rewrite fmap_cons in Hk. apply not_elem_of_cons in Hk as [Hne Hk].
  rewrite IH by done. unfold assign. by rewrite lookup_insert_ne.
Qed.

Lemma fold_assign_member (items : list (string * (string * string)))
    (acc : gmap str (gmap str str)) (a : string * (string * string)) :
  NoDup ((λ a, lit a.1) <$> items) → a ∈ items →
  fold_left assign items acc !! lit a.1
  = Some (selector_entry (lit a.2.1) (lit a.2.2)).
Proof.
  revert acc. induction items as [|a' items IH]; intros acc Hnd Hin;
    [by apply not_elem_of_nil in Hin|].
  rewrite fmap_cons in Hnd. apply NoDup_cons in Hnd as [Hfresh Hnd].
  apply elem_of_cons in Hin as [->|Hin]; simpl.
  - rewrite fold_assign_other by done. unfold assign. apply lookup_insert_eq.
  - by apply IH.
Qed.

Lemma assignment_keys_distinct :
  NoDup ((λ a : string * (string * string), lit a.1) <$> f_selector_assignments).
Proof.
  apply (bool_decide_unpack _). vm_compute. exact I.
Qed.

End TableLookup.

(** X18: no assignment of the selector table overwrites an earlier one:
    the sixty-four keys are pairwise distinct, and looking up the key of any
    assignment returns the name and signature assigned with it. *)
Theorem table_assignments_kept (a : string * (string * string)) :
  a ∈ f_selector_assignments →
  f_selector_dict !! lit a.1 = Some (selector_entry (lit a.2.1) (lit a.2.2))
  ∧ length f_selector_assignments = 64
  ∧ NoDup ((λ a : string * (string * string), lit a.1)
             <$> f_selector_assignments).
Proof.
  intros Hin. split_and!.
  - apply fold_assign_member; [apply assignment_keys_distinct|done].
  - reflexivity.
  - apply assignment_keys_distinct.
Qed.

Lemma table_assignments_kept_witness :
  f_selector_dict !! lit "0xf3cd914c"
  = Some (selector_entry (lit "swap")
            (lit "swap((address,address,uint24,int24,address),(bool,int256,uint160),bytes)")).
Proof.
  refine (proj1 (table_assignments_kept
                   ("0xf3cd914c",
                    ("swap",
                     "swap((address,address,uint24,int24,address),(bool,int256,uint160),bytes)"))
                   _)).
  do 6 right. left.
Defined.

(** ** Values of the right shape always render *)

Section Fits.

Variable to_checksum_address : value → result value.

Local Abbreviation pv := (_postprocess_value to_checksum_address).
Local Abbreviation tree := (render_tree to_checksum_address).
Local Abbreviation fit := (fits to_checksum_address).

Lemma rmap_total {A B} (g : A → result B) (l : list A) :
  Forall (λ a, ∃ b, g a = Ok b) l → ∃ out, rmap g l = Ok out.
Proof.
  induction 1 as [|a l [b Hb] _ [out IH]]; simpl; [by eexists|].
  rewrite Hb, IH. by eexists.
Qed.

Lemma drop_cons_inv {A} (l : list A) (i : nat) (x : A) (rest : list A) :
  drop i l = x :: rest → l !! i = Some x ∧ drop (S i) l = rest.
Proof.
  intros Hd.
  assert (l !! i = Some x) as Hx.
  { rewrite <- (Nat.add_0_r i), <- lookup_drop. by rewrite Hd. }
  split; [done|]. rewrite (drop_S _ _ _ Hx) in Hd. by injection Hd.
Qed.

Lemma members_fit (ms : list ty) (i : nat) (items : list value) :
  Forall (λ m, ∀ x, fit m x → ∃ y, tree m x = Ok y) ms →
  fits_members fit ms (drop i items) →
  ∃ es, members_with tree ms i (VTuple items) = Ok es.
Proof.
  intros Hms. revert i. induction Hms as [|m ms Hm _ IH]; intros i Hf; cbn;
    [by eexists|].
  cbn in Hf. destruct (drop i items) as [|x rest] eqn:Hd; [done|].
  destruct Hf as [Hx Hrest].
  apply drop_cons_inv in Hd as [Hi Hd]. rewrite Hi. cbn.
  destruct (Hm x Hx) as [y ->]. cbn.
  destruct (IH (S i)) as [es ->]; [by rewrite Hd|]. by eexists.
Qed.

Lemma tree_fit (t : ty) : ∀ v, fit t v → ∃ r, tree t v = Ok r.
Proof.
  induction t as [n|ms IH|e k IH] using ty_nested_ind; intros v Hf;
    cbn [fits render_tree] in *.
  - case_decide; [done|].
    destruct (startswith (lit "bytes") n); [|by eexists].
    destruct Hf as [b ->]. by eexists.
  - destruct Hf as (items & -> & Hf).
    destruct (members_fit ms 0 items) as [es ->]; [done|done|by eexists].
  - destruct Hf as (items & Hv & Hf).
    assert (py_iter v = Ok items) as -> by (by destruct Hv as [-> | ->]).
    cbn [rbind].
    destruct (rmap_total (tree e) items) as [out ->]; [|by eexists].
    eapply Forall_impl; [exact Hf|]. intros x Hx. by apply IH.
Qed.

End Fits.

(** X19: a value of the right shape renders whenever the call depth
    suffices: for a well-formed type, a decoded value that fits it (byte
    strings under bytes types, addresses the checksum function accepts,
    sequences under arrays, tuples with at least as many elements as
    members) and any bound on the depth of nested calls of the
    post-processor that exceeds the nesting depth of the type, the
    depth-bounded post-processor returns a rendered value: nothing is
    raised on account of the value, and the depth is exhausted only by a
    type nested as deep as the bound. *)
Theorem postprocess_fitting_value
    (to_checksum_address : value → result value) (t : ty) (v : value)
    (depth : nat) :
  well_formed t = true → fits to_checksum_address t v → nesting t < depth →
  ∃ r, postprocess_fuel to_checksum_address depth (show t) v = Some (Ok r).
Proof.
  intros Hwf Hf Hd. rewrite (fuel_nesting _ t Hwf depth v Hd).
  rewrite postprocess_tree by done.
  destruct (tree_fit _ t v Hf) as [r ->]. by exists r.
Qed.

(** A type of nesting 2 with a fitting value (one surplus element), at call
    depth 3. *)
Lemma postprocess_fitting_value_witness :
  let t := Tuple [Elementary (lit "address");
                  Array (Elementary (lit "bytes4")) None] in
  let v := VTuple [VStr (lit "0xab"); VTuple [VBytes ["a"%byte]]; VInt 9] in
  nesting t = 2
  ∧ ∃ r, postprocess_fuel checksum_stub 3 (show t) v = Some (Ok r).
Proof.
  intros t v. split; [reflexivity|].
  apply postprocess_fitting_value; [reflexivity| |vm_compute; lia].
  eexists. split; [reflexivity|]. cbn. split_and!; [| |done].
  - by eexists.
  - eexists. split; [by left|]. repeat constructor. cbn. by eexists.
Defined.

(** X20: the exact lists that survive join-then-split.  When every element
    but the last is non-empty, trimmed and balanced without comma at depth
    0, and the last is non-empty and trimmed without comma at depth 0
    (balanced or not), splitting the comma-join gives the list back. *)
Theorem split_join_joinable_roundtrip (l : list str) :
  joinable l → _split_top_level_args (join (lit ",") l) = l.
Proof. apply split_join_joinable. Qed.

(** The last element may leave a parenthesis open. *)
Lemma split_join_joinable_roundtrip_witness :
  _split_top_level_args (join (lit ",") [lit "a"; lit "(b"]) = [lit "a"; lit "(b"].
Proof.
  apply split_join_joinable_roundtrip. cbn [joinable].
  split; split_and!; try done; try (vm_compute; reflexivity).
Defined.
